(** * deno-puppeteer: the helper layer of the protocol client

    A shallow embedding of [vendor/puppeteer-core/puppeteer/common/helper.js]
    (evaluation serializer, in-page binding bridge, event waiter, stream
    reader, object release) together with the properties the specification
    states about it.

    Conventions.
    - JavaScript values are modelled by [json] (plain data) and [value]
      (plain data or an [Error] instance).
    - A synchronous call that may throw returns a [completion].
    - An [async] function is run against an explicit world (protocol client,
      file system, diagnostic log) and yields a [settlement]: fulfilled,
      rejected, or still pending because a promise it awaits never settles.
    - The event loop is modelled by a trace of steps; a microtask checkpoint
      is a step of its own. *)

From Stdlib Require Import ZArith Lia Bool List Ascii String.
From stdpp Require Import base option list strings pretty gmap.

Set Warnings "-register-all".
Local Open Scope string_scope.
Local Open Scope Z_scope.

(* ===================================================================== *)
(** * Part I: definitions                                                 *)
(* ===================================================================== *)

(** ** JavaScript data *)

Module Js.

(** Non-error JavaScript values.  Numbers are the integer-valued numbers of
    the safe range (sequence numbers, timeouts in milliseconds); an object
    is the list of its enumerable own properties in property order. *)
Inductive json : Type :=
| JUndefined
| JNull
| JBool (b : bool)
| JNum (n : Z)
| JStr (s : string)
| JArr (items : list json)
| JObj (fields : list (string * json)).

(** The error classes that occur in the helper layer and in the
    specification's taxonomy. *)
Inductive error_class : Type :=
| PlainError
| TypeError
| TimeoutError
| ArgumentError
| InvalidCharacterError
| RemoteCommandError
| PermissionDenied.

Record error : Type := mkError { err_class : error_class; err_message : string }.

(** A value that can be passed around, thrown or used to settle a
    promise: plain data, or an instance of [Error]. *)
Inductive value : Type :=
| Val (j : json)
| ErrorObject (e : error).

(** [x instanceof Error] *)
Definition instanceof_Error (x : value) : bool :=
  match x with
  | ErrorObject _ => true
  | Val _ => false
  end.

(** Result of a synchronous call. *)
Inductive completion (A : Type) : Type :=
| Return (a : A)
| Throw (e : error).
Arguments Return {A} a.
Arguments Throw {A} e.

Definition cbind {A B} (c : completion A) (k : A -> completion B) : completion B :=
  match c with
  | Return a => k a
  | Throw e => Throw e
  end.

(** State of a promise. *)
Inductive pstate : Type :=
| Pending
| Fulfilled (v : value)
| Rejected (v : value).

(** [resolve]/[reject] on a promise: only a pending promise changes. *)
Definition settle (new : pstate) (p : pstate) : pstate :=
  match p with
  | Pending => new
  | _ => p
  end.

Definition is_pending (p : pstate) : bool :=
  match p with
  | Pending => true
  | _ => false
  end.

(** Dropping the first occurrence of an element, as [splice] at its
    [indexOf] does. *)
Fixpoint remove_first {A} `{EqDecision A} (x : A) (l : list A) : list A :=
  match l with
  | [] => []
  | y :: rest => if bool_decide (y = x) then rest else y :: remove_first x rest
  end.

(** Whether [needle] occurs in [hay]. *)
Fixpoint is_substring (needle hay : string) : bool :=
  String.prefix needle hay ||
  match hay with
  | EmptyString => false
  | String _ rest => is_substring needle rest
  end.

(** Truthiness of a string and of a number. *)
Definition truthy_string (s : string) : bool :=
  match s with
  | EmptyString => false
  | _ => true
  end.

Definition truthy_number (n : Z) : bool := negb (n =? 0).

(** Rendering of an integer-valued number of the safe range in a template
    literal and in JSON: its decimal digits, with a minus sign when
    negative. *)
Definition Number_toString (n : Z) : string := pretty n.

(** Modelled from the spec: [assert] (imported from ./assert.js, whose
    source is not available).  A violated assertion throws with the given
    message; the specification names the class of a violated caller
    contract [ArgumentError]. *)
Definition assert (cond : bool) (message : string) : completion unit :=
  if cond then Return tt else Throw (mkError ArgumentError message).

End Js.
Import Js.

Notation "'let!' x ':=' c 'in' k" := (cbind c (fun x => k))
  (at level 10, x pattern, c at level 100, k at level 200).

(** ** Evaluation serializer *)

Module Serializer.

Definition dquote : ascii := "034"%char.
Definition backslash : ascii := "092"%char.

Definition hex_digit (n : N) : ascii :=
  if (n <? 10)%N then ascii_of_N (48 + n) else ascii_of_N (87 + n).

(** One code unit of a JSON string literal. *)
Definition quote_char (c : ascii) : string :=
  let n := N_of_ascii c in
  if (n =? 34)%N then String backslash (String dquote EmptyString)
  else if (n =? 92)%N then String backslash (String backslash EmptyString)
  else if (n =? 8)%N then String backslash "b"
  else if (n =? 12)%N then String backslash "f"
  else if (n =? 10)%N then String backslash "n"
  else if (n =? 13)%N then String backslash "r"
  else if (n =? 9)%N then String backslash "t"
  else if (n <? 32)%N then
    String backslash
      (String "u" (String "0" (String "0"
         (String (hex_digit (n / 16)) (String (hex_digit (n mod 16)) EmptyString)))))
  else String c EmptyString.

Fixpoint quote_chars (s : string) : string :=
  match s with
  | EmptyString => EmptyString
  | String c rest => quote_char c ++ quote_chars rest
  end.

(** [QuoteJSONString] of ECMA-262. *)
Definition QuoteJSONString (s : string) : string :=
  String dquote (quote_chars s ++ String dquote EmptyString).

(** [Array.prototype.join]: an element that is [undefined] renders as the
    empty string. *)
Definition Array_join (sep : string) (l : list (option string)) : string :=
  String.concat sep (map (default "") l).

(** [JSON.stringify] on plain data: [None] is the result [undefined]. *)
Fixpoint JSON_stringify (v : json) : option string :=
  match v with
  | JUndefined => None
  | JNull => Some "null"
  | JBool b => Some (if b then "true" else "false")
  | JNum n => Some (Number_toString n)
  | JStr s => Some (QuoteJSONString s)
  | JArr items =>
      Some ("[" ++
            String.concat ","
              (map (fun i => default "null" (JSON_stringify i)) items) ++
            "]")
  | JObj fields =>
      Some ("{" ++
            String.concat ","
              (omap (fun kv => match JSON_stringify (snd kv) with
                               | Some s => Some (QuoteJSONString (fst kv) ++ ":" ++ s)
                               | None => None
                               end) fields) ++
            "}")
  end.

(** The first argument of [evaluationString]: a string, or a function
    given by its source text (what [`${fun}`] renders). *)
Inductive script : Type :=
| ScriptString (s : string)
| ScriptFunction (source : string).

Definition isString (fun_ : script) : bool :=
  match fun_ with
  | ScriptString _ => true
  | ScriptFunction _ => false
  end.

(** The string itself, or what the template literal makes of the
    function. *)
Definition text_of (fun_ : script) : string :=
  match fun_ with
  | ScriptString s => s
  | ScriptFunction source => source
  end.

Definition serializeArgument (arg : json) : option string :=
  match arg with
  | JUndefined => Some "undefined"
  | _ => JSON_stringify arg
  end.

Definition evaluationString (fun_ : script) (args : list json) : completion string :=
  if isString fun_ then
    let! _ := assert (Nat.eqb (length args) 0) "Cannot evaluate a string with arguments" in
    Return (text_of fun_)
  else
    Return ("(" ++ text_of fun_ ++ ")(" ++ Array_join "," (map serializeArgument args) ++ ")").


End Serializer.

(** ** Binding bridge *)

Module Bridge.
Import Serializer.

(** *** Host side: the generated scripts *)

(** Source text of the functions that are rendered into the scripts
    ([Function.prototype.toString] yields the text of the definition). *)
Definition addPageBinding_source : string :=
"function addPageBinding(type, bindingName) {
    /* Cast window to any here as we're about to add properties to it
         * via win[bindingName] which TypeScript doesn't like.
         */
    const win = window;
    const binding = win[bindingName];
    win[bindingName] = (...args) => {
      const me = window[bindingName];
      let callbacks = me.callbacks;
      if (!callbacks) {
        callbacks = new Map();
        me.callbacks = callbacks;
      }
      const seq = (me.lastSeq || 0) + 1;
      me.lastSeq = seq;
      const promise = new Promise((resolve, reject) =>
        callbacks.set(seq, { resolve, reject })
      );
      binding(JSON.stringify({ type, name: bindingName, seq, args }));
      return promise;
    };
  }".

Definition deliverResult_source : string :=
"function deliverResult(name, seq, result) {
    window[name].callbacks.get(seq).resolve(result);
    window[name].callbacks.delete(seq);
  }".

Definition deliverError_source : string :=
"function deliverError(name, seq, message, stack) {
    const error = new Error(message);
    error.stack = stack;
    window[name].callbacks.get(seq).reject(error);
    window[name].callbacks.delete(seq);
  }".

Definition deliverErrorValue_source : string :=
"function deliverErrorValue(name, seq, value) {
    window[name].callbacks.get(seq).reject(value);
    window[name].callbacks.delete(seq);
  }".

Definition pageBindingInitString (type : json) (name : string) : completion string :=
  evaluationString (ScriptFunction addPageBinding_source) [type; JStr name].

Definition pageBindingDeliverResultString (name : string) (seq : Z) (result : json)
  : completion string :=
  evaluationString (ScriptFunction deliverResult_source) [JStr name; JNum seq; result].

Definition pageBindingDeliverErrorString (name : string) (seq : Z) (message stack : string)
  : completion string :=
  evaluationString (ScriptFunction deliverError_source)
    [JStr name; JNum seq; JStr message; JStr stack].

Definition pageBindingDeliverErrorValueString (name : string) (seq : Z) (value : json)
  : completion string :=
  evaluationString (ScriptFunction deliverErrorValue_source) [JStr name; JNum seq; value].

(** *** Page side: what the rendered functions do when evaluated *)

(** A function found under [window[name]]: the native binding installed by
    the engine, or the wrapper installed by [addPageBinding], which closes
    over [type], [bindingName] and the previous [win[bindingName]]. *)
Inductive fn_kind : Type :=
| Native
| Wrapper (type : json) (bindingName : string) (binding : option fn_kind).

(** A function object with the two properties the wrapper keeps on it.
    The [callbacks] map sends a sequence number to the promise whose
    [{resolve, reject}] pair it stores. *)
Record fn_object : Type := mkFn {
  kind : fn_kind;
  callbacks : option (gmap Z nat);
  lastSeq : option Z
}.

(** The page: its global object, the promises created so far (a promise
    is named by its index) and the payloads handed to the native binding. *)
Record page : Type := mkPage {
  window : gmap string fn_object;
  promises : list pstate;
  outbox : list string
}.

(** In-page computations: the page is kept when a call throws. *)
Definition P (A : Type) : Type := page -> completion A * page.

Definition pret {A} (a : A) : P A := fun pg => (Return a, pg).
Definition pthrow {A} (e : error) : P A := fun pg => (Throw e, pg).
Definition pbind {A B} (m : P A) (k : A -> P B) : P B :=
  fun pg => match m pg with
            | (Return a, pg') => k a pg'
            | (Throw e, pg') => (Throw e, pg')
            end.

Definition undefined_access (what : string) : error :=
  mkError TypeError ("Cannot read properties of undefined (reading '" ++ what ++ "')").

(** [window[name].callbacks] *)
Definition window_callbacks (name : string) : P (fn_object * gmap Z nat) :=
  fun pg =>
    match window pg !! name with
    | None => (Throw (undefined_access "callbacks"), pg)
    | Some f =>
        match callbacks f with
        | None => (Throw (undefined_access "get"), pg)
        | Some cbs => (Return (f, cbs), pg)
        end
    end.

(** [window[name].callbacks.get(seq)], about to be dereferenced by
    [.resolve] or [.reject]. *)
Definition callbacks_get (name : string) (seq : Z) (prop : string) : P nat :=
  pbind (window_callbacks name) (fun fc =>
    match snd fc !! seq with
    | None => pthrow (undefined_access prop)
    | Some p => pret p
    end).

(** The [resolve] and [reject] functions of promise [p]. *)
Definition settle_promise (p : nat) (new : pstate) : P unit :=
  fun pg =>
    (Return tt,
     mkPage (window pg)
            (match promises pg !! p with
             | Some st => <[p := settle new st]> (promises pg)
             | None => promises pg
             end)
            (outbox pg)).

(** [window[name].callbacks.delete(seq)] *)
Definition callbacks_delete (name : string) (seq : Z) : P unit :=
  fun pg =>
    match window pg !! name with
    | None => (Throw (undefined_access "callbacks"), pg)
    | Some f =>
        match callbacks f with
        | None => (Throw (undefined_access "delete"), pg)
        | Some cbs =>
            (Return tt,
             mkPage (<[name := mkFn (kind f) (Some (delete seq cbs)) (lastSeq f)]> (window pg))
                    (promises pg) (outbox pg))
        end
    end.

Definition deliverResult (name : string) (seq : Z) (result : json) : P unit :=
  pbind (callbacks_get name seq "resolve") (fun p =>
  pbind (settle_promise p (Fulfilled (Val result))) (fun _ =>
  callbacks_delete name seq)).

Definition deliverError (name : string) (seq : Z) (message stack : string) : P unit :=
  let error := ErrorObject (mkError PlainError message) in
  pbind (callbacks_get name seq "reject") (fun p =>
  pbind (settle_promise p (Rejected error)) (fun _ =>
  callbacks_delete name seq)).

Definition deliverErrorValue (name : string) (seq : Z) (value : json) : P unit :=
  pbind (callbacks_get name seq "reject") (fun p =>
  pbind (settle_promise p (Rejected (Val value))) (fun _ =>
  callbacks_delete name seq)).

(** The three deliveries the host can make for a call. *)
Inductive delivery : Type :=
| OfResult (result : json)
| OfError (message stack : string)
| OfErrorValue (value : json).

(** The page function a delivery runs. *)
Definition deliver (d : delivery) (name : string) (seq : Z) : P unit :=
  match d with
  | OfResult result => deliverResult name seq result
  | OfError message stack => deliverError name seq message stack
  | OfErrorValue value => deliverErrorValue name seq value
  end.

(** The script the host generates for a delivery. *)
Definition delivery_script (d : delivery) (name : string) (seq : Z) : completion string :=
  match d with
  | OfResult result => pageBindingDeliverResultString name seq result
  | OfError message stack => pageBindingDeliverErrorString name seq message stack
  | OfErrorValue value => pageBindingDeliverErrorValueString name seq value
  end.

(** What the in-page caller is to observe after a delivery. *)
Definition delivered (d : delivery) : pstate :=
  match d with
  | OfResult result => Fulfilled (Val result)
  | OfError message _ => Rejected (ErrorObject (mkError PlainError message))
  | OfErrorValue value => Rejected (Val value)
  end.

(** The property read on the entry: a missing entry shows as a failed
    read of that property. *)
Definition entry_property (d : delivery) : string :=
  match d with
  | OfResult _ => "resolve"
  | _ => "reject"
  end.

(** [seq] has a pending entry under [window[name]], held by promise [p]. *)
Definition pending_entry (pg : page) (name : string) (seq : Z) (p : nat) : Prop :=
  exists f cbs,
    window pg !! name = Some f /\ callbacks f = Some cbs /\
    cbs !! seq = Some p /\ promises pg !! p = Some Pending.

(** [window[name].callbacks.get(seq)] as an optional entry. *)
Definition entry (pg : page) (name : string) (seq : Z) : option nat :=
  match window pg !! name with
  | Some f => match callbacks f with
              | Some cbs => cbs !! seq
              | None => None
              end
  | None => None
  end.

(** [addPageBinding(type, bindingName)]: replaces [win[bindingName]] by
    a fresh wrapper function that closes over the previous one. *)
Definition addPageBinding (type : json) (bindingName : string) : P unit :=
  fun pg =>
    let binding := kind <$> (window pg !! bindingName) in
    (Return tt,
     mkPage (<[bindingName := mkFn (Wrapper type bindingName binding) None None]> (window pg))
            (promises pg) (outbox pg)).

(** Calling a function of the page.  The native binding takes exactly one
    string and forwards it to the host; the wrapper allocates the next
    sequence number, parks a pending promise under it, forwards the call
    and returns the promise. *)
Fixpoint call (f : fn_kind) (args : list json) : P (option nat) :=
  match f with
  | Native =>
      match args with
      | [JStr payload] =>
          fun pg => (Return None, mkPage (window pg) (promises pg) (outbox pg ++ [payload]))
      | _ => pthrow (mkError PlainError "Invalid arguments: should be exactly one string.")
      end
  | Wrapper type bindingName binding =>
      fun pg =>
        match window pg !! bindingName with
        | None => (Throw (undefined_access "callbacks"), pg)
        | Some me =>
            let cbs := default ∅ (callbacks me) in
            let seq := default 0 (lastSeq me) + 1 in
            let promise := length (promises pg) in
            let pg1 :=
              mkPage (<[bindingName := mkFn (kind me) (Some (<[seq := promise]> cbs)) (Some seq)]>
                        (window pg))
                     (promises pg ++ [Pending]) (outbox pg) in
            let payload :=
              default "" (JSON_stringify
                (JObj [("type", type); ("name", JStr bindingName);
                       ("seq", JNum seq); ("args", JArr args)])) in
            match binding with
            | None => (Throw (mkError TypeError "binding is not a function"), pg1)
            | Some b =>
                match call b [JStr payload] pg1 with
                | (Return _, pg2) => (Return (Some promise), pg2)
                | (Throw e, pg2) => (Throw e, pg2)
                end
            end
        end
  end.

(** [window[name].lastSeq || 0] *)
Definition lastSeq_of (pg : page) (name : string) : Z :=
  match window pg !! name with
  | Some f => default 0 (lastSeq f)
  | None => 0
  end.

(** What the bridge keeps true of a page: every entry of a callbacks map
    holds a promise that is still pending, under a positive sequence number
    not beyond the binding's [lastSeq], and no promise is held by two
    entries. *)
Definition bridge_ok (pg : page) : Prop :=
  (forall name seq p,
      entry pg name seq = Some p ->
      promises pg !! p = Some Pending /\ 0 < seq <= lastSeq_of pg name) /\
  (forall name1 seq1 name2 seq2 p,
      entry pg name1 seq1 = Some p -> entry pg name2 seq2 = Some p ->
      name1 = name2 /\ seq1 = seq2) /\
  (forall name, 0 <= lastSeq_of pg name).

(** Calling [window[name](...args)] from page script. *)
Definition call_global (name : string) (args : list json) : P (option nat) :=
  fun pg =>
    match window pg !! name with
    | None => (Throw (mkError TypeError (name ++ " is not a function")), pg)
    | Some f => call (kind f) args pg
    end.

(** What can happen to the bindings of a page: the init script is
    evaluated, page script calls a binding, the host delivers. *)
Inductive page_op : Type :=
| Install (type : json) (name : string)
| Call (name : string) (args : list json)
| Deliver (d : delivery) (name : string) (seq : Z).

Definition run_op (op : page_op) (pg : page) : page :=
  match op with
  | Install type name => snd (addPageBinding type name pg)
  | Call name args => snd (call_global name args pg)
  | Deliver d name seq => snd (deliver d name seq pg)
  end.

Definition run_ops (ops : list page_op) (pg : page) : page :=
  fold_left (fun pg op => run_op op pg) ops pg.

End Bridge.

(** ** Event waiter *)

Module Waiter.

(** Modelled from the spec: the event emitter that is handed to
    [addEventListener] and [waitForEvent] (its class is defined outside
    helper.js).  An emitter holds its registrations in registration order;
    [on] adds one, [removeListener] drops the first registration of that
    handler under that event name, and [emit] calls the handlers registered
    under the emitted name.  A handler is a function object, identified
    here by a number. *)
Abbreviation emitter := (list (string * nat)).

Definition on (eventName : string) (handler : nat) (em : emitter) : emitter :=
  em ++ [(eventName, handler)].

Definition removeListener (eventName : string) (handler : nat) (em : emitter) : emitter :=
  remove_first (eventName, handler) em.

Definition registered (eventName : string) (handler : nat) (em : emitter) : bool :=
  bool_decide ((eventName, handler) ∈ em).

(** Identity of a newly created function object: not among those the
    emitter already holds. *)
Definition new_function (em : emitter) : nat := S (list_max (map snd em)).

(** The record [addEventListener] returns; its [emitter] field is the one
    emitter of the model. *)
Record listener : Type := mkListener { l_eventName : string; l_handler : nat }.

Definition addEventListener (eventName : string) (handler : nat) (em : emitter)
  : emitter * listener :=
  (on eventName handler em, mkListener eventName handler).

Definition removeEventListeners (listeners : list listener) (em : emitter) : emitter :=
  fold_left (fun em l => removeListener (l_eventName l) (l_handler l) em) listeners em.

(** What happens around a pending wait, one step at a time. *)
Inductive step : Type :=
| Emit (name : string) (event : value)      (* emitter.emit(name, event) *)
| TimerFires                                 (* the timer task of this wait runs *)
| AbortResolved (v : value)                 (* abortPromise is resolved with v *)
| AbortRejected (v : value)                 (* abortPromise is rejected with v *)
| WorkResolved (v : value)                  (* the wrapped promise is resolved *)
| WorkRejected (v : value)                  (* the wrapped promise is rejected *)
| Microtasks.                                (* microtask checkpoint *)

(** [Promise.race] of two promises: when an input settles while the race
    is still open, the race takes that settlement (reaction jobs run in
    settlement order, so the first input to settle decides). *)
Definition race_start (a b : pstate) : pstate :=
  match a with
  | Pending => b
  | _ => a
  end.

Definition timeout_message_waitForEvent : string :=
  "Timeout exceeded while waiting for event".

Section WaitForEvent.

Variable eventName : string.
Variable predicate : value -> bool.
Variable timeout : Z.

(** The variables of one call of [waitForEvent] and what it acts on. *)
Record wait : Type := mkWait {
  w_emitter : emitter;          (* the emitter's registrations *)
  w_listener : listener;        (* listener *)
  w_timer : option Z;           (* the pending timer of eventTimeout, if any *)
  w_promise : pstate;           (* promise *)
  w_abort : pstate;             (* abortPromise *)
  w_race : pstate;              (* Promise.race([promise, abortPromise]) *)
  w_result : pstate             (* the promise the async function returned *)
}.

(** The synchronous part of the call, up to the [await]. *)
Definition waitForEvent (em : emitter) (abortPromise : pstate) : wait :=
  let registration := addEventListener eventName (new_function em) em in
  mkWait (fst registration)
         (snd registration)
         (if truthy_number timeout then Some timeout else None)
         Pending
         abortPromise
         (race_start Pending abortPromise)
         Pending.

Definition resolveCallback (v : value) (w : wait) : wait :=
  if is_pending (w_promise w) then
    mkWait (w_emitter w) (w_listener w) (w_timer w)
           (Fulfilled v) (w_abort w) (settle (Fulfilled v) (w_race w)) (w_result w)
  else w.

Definition rejectCallback (v : value) (w : wait) : wait :=
  if is_pending (w_promise w) then
    mkWait (w_emitter w) (w_listener w) (w_timer w)
           (Rejected v) (w_abort w) (settle (Rejected v) (w_race w)) (w_result w)
  else w.

Definition settle_abort (new : pstate) (w : wait) : wait :=
  if is_pending (w_abort w) then
    mkWait (w_emitter w) (w_listener w) (w_timer w)
           (w_promise w) new (settle new (w_race w)) (w_result w)
  else w.

(** The listener of the call. *)
Definition handler_body (event : value) (w : wait) : wait :=
  if negb (predicate event) then w else resolveCallback event w.

(** [cleanup()]: [removeEventListeners([listener])] and
    [clearTimeout(eventTimeout)]. *)
Definition cleanup (w : wait) : wait :=
  mkWait (removeEventListeners [w_listener w] (w_emitter w))
         (w_listener w) None
         (w_promise w) (w_abort w) (w_race w) (w_result w).

(** The code after the [await]: what the async function settles with,
    given the settlement of the race. *)
Definition after_await (r : pstate) : pstate :=
  match r with
  | Pending => Pending
  | Fulfilled result =>
      if instanceof_Error result then Rejected result else Fulfilled result
  | Rejected error => Rejected error
  end.

(** Microtask checkpoint: once the race has settled, its [then]
    handlers run [cleanup] and the async function resumes. *)
Definition checkpoint (w : wait) : wait :=
  if is_pending (w_result w) && negb (is_pending (w_race w)) then
    let w' := cleanup w in
    mkWait (w_emitter w') (w_listener w') (w_timer w')
           (w_promise w') (w_abort w') (w_race w') (after_await (w_race w'))
  else w.

Definition wait_step (s : step) (w : wait) : wait :=
  match s with
  | Emit name event =>
      if registered name (l_handler (w_listener w)) (w_emitter w)
      then handler_body event w else w
  | TimerFires =>
      let w := checkpoint w in
      match w_timer w with
      | Some _ =>
          rejectCallback
            (ErrorObject (mkError TimeoutError timeout_message_waitForEvent))
            (mkWait (w_emitter w) (w_listener w) None
                    (w_promise w) (w_abort w) (w_race w) (w_result w))
      | None => w
      end
  | AbortResolved v => settle_abort (Fulfilled v) w
  | AbortRejected v => settle_abort (Rejected v) w
  | WorkResolved _ | WorkRejected _ => w
  | Microtasks => checkpoint w
  end.

Definition wait_run (w : wait) (trace : list step) : wait :=
  fold_left (fun w s => wait_step s w) trace w.

(** *** The race as the specification describes it *)

Inductive cause : Type := MatchingEvent | TimedOut | Aborted.

(** The first thing in a trace that can end the wait, with the
    settlement it brings. *)
Fixpoint first_trigger (trace : list step) : option (cause * pstate) :=
  match trace with
  | [] => None
  | Emit name event :: rest =>
      if bool_decide (name = eventName) && predicate event
      then Some (MatchingEvent, Fulfilled event)
      else first_trigger rest
  | TimerFires :: rest =>
      if truthy_number timeout
      then Some (TimedOut,
                 Rejected (ErrorObject (mkError TimeoutError timeout_message_waitForEvent)))
      else first_trigger rest
  | AbortResolved v :: _ => Some (Aborted, Fulfilled v)
  | AbortRejected v :: _ => Some (Aborted, Rejected v)
  | _ :: rest => first_trigger rest
  end.

(** An abort promise that has settled before the call decides at once. *)
Definition winner (abortPromise : pstate) (trace : list step) : option (cause * pstate) :=
  match abortPromise with
  | Pending => first_trigger trace
  | _ => Some (Aborted, abortPromise)
  end.

(** *** Phases of a wait on an emitter that held [em] at the call *)

(** The race has settled with [s], the function has not resumed yet: the
    listener is still registered. *)
Definition decided (em : emitter) (s : pstate) (w : wait) : Prop :=
  s <> Pending /\ w_race w = s /\ w_result w = Pending /\
  w_listener w = mkListener eventName (new_function em) /\
  w_emitter w = on eventName (new_function em) em.

(** The function has resumed and settled: listener and timer are gone. *)
Definition completed (em : emitter) (s : pstate) (w : wait) : Prop :=
  s <> Pending /\ w_race w = s /\ w_result w = after_await s /\
  w_listener w = mkListener eventName (new_function em) /\
  w_emitter w = em /\ w_timer w = None.

End WaitForEvent.

Section WaitWithTimeout.

Variable taskName : string.
Variable timeout : Z.

Definition timeoutError : error :=
  mkError TimeoutError
    ("waiting for " ++ taskName ++ " failed: timeout " ++
     Number_toString timeout ++ "ms exceeded").

(** The variables of one call of [waitWithTimeout]. *)
Record guarded : Type := mkGuarded {
  g_timer : option Z;           (* the pending timer of timeoutTimer, if any *)
  g_promise : pstate;           (* promise *)
  g_timeoutPromise : pstate;    (* timeoutPromise *)
  g_race : pstate;              (* Promise.race([promise, timeoutPromise]) *)
  g_result : pstate             (* the promise the async function returned *)
}.

(** The synchronous part of the call, up to the [await]. *)
Definition waitWithTimeout (promise : pstate) : guarded :=
  mkGuarded (if truthy_number timeout then Some timeout else None)
            promise Pending (race_start promise Pending) Pending.

Definition settle_work (new : pstate) (g : guarded) : guarded :=
  if is_pending (g_promise g) then
    mkGuarded (g_timer g) new (g_timeoutPromise g) (settle new (g_race g)) (g_result g)
  else g.

(** [reject(timeoutError)] *)
Definition reject_timeout (g : guarded) : guarded :=
  if is_pending (g_timeoutPromise g) then
    let r := Rejected (ErrorObject timeoutError) in
    mkGuarded (g_timer g) (g_promise g) r (settle r (g_race g)) (g_result g)
  else g.

(** Microtask checkpoint: once the race has settled, the [finally]
    block clears the timer and the async function settles like the
    race. *)
Definition guarded_checkpoint (g : guarded) : guarded :=
  if is_pending (g_result g) && negb (is_pending (g_race g)) then
    mkGuarded None (g_promise g) (g_timeoutPromise g) (g_race g) (g_race g)
  else g.

Definition guarded_step (s : step) (g : guarded) : guarded :=
  match s with
  | WorkResolved v => settle_work (Fulfilled v) g
  | WorkRejected v => settle_work (Rejected v) g
  | TimerFires =>
      let g := guarded_checkpoint g in
      match g_timer g with
      | Some _ =>
          reject_timeout
            (mkGuarded None (g_promise g) (g_timeoutPromise g) (g_race g) (g_result g))
      | None => g
      end
  | Microtasks => guarded_checkpoint g
  | Emit _ _ | AbortResolved _ | AbortRejected _ => g
  end.

Definition guarded_run (g : guarded) (trace : list step) : guarded :=
  fold_left (fun g s => guarded_step s g) trace g.

(** Whether the timer is the first thing in the trace to settle the
    race of a call whose wrapped promise was still pending. *)
Fixpoint timer_first (trace : list step) : bool :=
  match trace with
  | [] => false
  | TimerFires :: rest => truthy_number timeout || timer_first rest
  | WorkResolved _ :: _ | WorkRejected _ :: _ => false
  | _ :: rest => timer_first rest
  end.

(** The timer has won the race of a call of [waitWithTimeout]. *)
Definition timed_out (g : guarded) : Prop :=
  g_race g = Rejected (ErrorObject timeoutError) /\
  (g_result g = Pending \/ (g_result g = g_race g /\ g_timer g = None)).

End WaitWithTimeout.

Section WaitWithTimeoutRace.

Variable taskName : string.
Variable timeout : Z.

(** The first thing in a trace that settles the race of [waitWithTimeout],
    with the settlement it brings. *)
Fixpoint first_settlement (trace : list step) : option pstate :=
  match trace with
  | [] => None
  | WorkResolved v :: _ => Some (Fulfilled v)
  | WorkRejected v :: _ => Some (Rejected v)
  | TimerFires :: rest =>
      if truthy_number timeout
      then Some (Rejected (ErrorObject (timeoutError taskName timeout)))
      else first_settlement rest
  | _ :: rest => first_settlement rest
  end.

(** A wrapped promise that has settled before the call decides at once. *)
Definition guarded_winner (promise : pstate) (trace : list step) : option pstate :=
  match promise with
  | Pending => first_settlement trace
  | _ => Some promise
  end.

(** The race has settled with [s], the function has not resumed yet. *)
Definition guard_decided (s : pstate) (g : guarded) : Prop :=
  s <> Pending /\ g_race g = s /\ g_result g = Pending.

(** The function has resumed: it settled like the race, the timer is
    cleared. *)
Definition guard_completed (s : pstate) (g : guarded) : Prop :=
  s <> Pending /\ g_race g = s /\ g_result g = s /\ g_timer g = None.

End WaitWithTimeoutRace.

(** Registering a new function under each of the names, one after the
    other, as a caller that collects the listeners in an array does. *)
Fixpoint addEventListeners (names : list string) (em : emitter) : emitter * list listener :=
  match names with
  | [] => (em, [])
  | name :: rest =>
      let registration := addEventListener name (new_function em) em in
      let later := addEventListeners rest (fst registration) in
      (fst later, snd registration :: snd later)
  end.

End Waiter.

(** ** Base64 *)

Module Base64.

Definition is_whitespace (c : ascii) : bool :=
  let n := N_of_ascii c in
  (n =? 9)%N || (n =? 10)%N || (n =? 12)%N || (n =? 13)%N || (n =? 32)%N.

(** Value of a character of the base64 alphabet. *)
Definition sextet (c : ascii) : option N :=
  let n := N_of_ascii c in
  if (65 <=? n)%N && (n <=? 90)%N then Some (n - 65)%N
  else if (97 <=? n)%N && (n <=? 122)%N then Some (n - 71)%N
  else if (48 <=? n)%N && (n <=? 57)%N then Some (n + 4)%N
  else if (n =? 43)%N then Some 62%N
  else if (n =? 47)%N then Some 63%N
  else None.

Definition is_pad (c : ascii) : bool := (N_of_ascii c =? 61)%N.

(** One or two trailing [=] are dropped when the length is a multiple of
    four. *)
Definition strip_padding (l : list ascii) : list ascii :=
  if Nat.eqb (length l mod 4) 0 then
    match rev l with
    | p1 :: p2 :: rest =>
        if is_pad p1 then (if is_pad p2 then rev rest else rev (p2 :: rest)) else l
    | [p1] => if is_pad p1 then [] else l
    | [] => l
    end
  else l.

Definition octet (n : N) : Byte.byte := byte_of_ascii (ascii_of_N (n mod 256)).

(** Four sextets give three octets; a final group of three gives two and
    a final group of two gives one. *)
Fixpoint octets (l : list N) : list Byte.byte :=
  match l with
  | a :: b :: c :: d :: rest =>
      let n := (a * 262144 + b * 4096 + c * 64 + d)%N in
      octet (n / 65536) :: octet (n / 256) :: octet n :: octets rest
  | [a; b; c] =>
      let n := ((a * 4096 + b * 64 + c) / 4)%N in
      [octet (n / 256); octet n]
  | [a; b] =>
      let n := ((a * 64 + b) / 16)%N in
      [octet n]
  | _ => []
  end.

Definition invalid : error :=
  mkError InvalidCharacterError "Failed to decode base64".

(** Modelled from the spec: [base64Decode] (re-exported by
    ../../vendor/std.ts, whose source is not available).  A decoder of
    base64 text as the runtime's [atob] reads it: white space is skipped,
    padding is optional, and malformed text makes the call throw. *)
Definition base64Decode (s : string) : completion (list Byte.byte) :=
  let l := strip_padding (filter (fun c => negb (is_whitespace c)) (list_ascii_of_string s)) in
  if Nat.eqb (length l mod 4) 1 then Throw invalid
  else match mapM sextet l with
       | Some ns => Return (octets ns)
       | None => Throw invalid
       end.

End Base64.

(** ** Protocol client, object release and stream reader *)

Module Protocol.

Abbreviation bytes := (list Byte.byte).

(** A command handed to [client.send]: the method and the one parameter
    the helper passes ([handle] or [objectId]). *)
Record command : Type := mkCommand { method : string; param : string }.

#[global] Instance command_eq_dec : EqDecision command.
Proof. solve_decision. Defined.

(** The fields of a response that the helper reads. *)
Record response : Type := mkResponse {
  data : string;
  base64Encoded : bool;
  eof : bool
}.

(** What the engine does with a command: answer, answer with an error,
    or never answer. *)
Inductive reply : Type :=
| Result (r : response)
| Failure (e : error)
| Silence.

Record file_handle : Type := mkHandle { fh_path : string; fh_cursor : nat }.

(** Everything outside the client that the helper acts on. *)
Record world : Type := mkWorld {
  issued : list command;            (* calls of client.send, in order *)
  files : gmap string bytes;        (* contents of the files that exist *)
  denied : gset string;             (* paths that cannot be opened *)
  open_handles : list string;       (* files opened and not yet closed *)
  diagnostics : list error          (* what debugError was called with *)
}.

(** Outcome of awaiting an async computation. *)
Inductive settlement (A : Type) : Type :=
| Resolved (a : A)
| Failed (e : error)
| Hanging.
Arguments Resolved {A} a.
Arguments Failed {A} e.
Arguments Hanging {A}.

(** Async computations over the client (the replies still to come, one
    per command, in order) and the world. *)
Definition IO (A : Type) : Type :=
  list reply -> world -> settlement A * list reply * world.

Definition ioret {A} (a : A) : IO A := fun rs w => (Resolved a, rs, w).

Definition iobind {A B} (m : IO A) (k : A -> IO B) : IO B :=
  fun rs w =>
    match m rs w with
    | (Resolved a, rs', w') => k a rs' w'
    | (Failed e, rs', w') => (Failed e, rs', w')
    | (Hanging, rs', w') => (Hanging, rs', w')
    end.

(** [promise.catch(handler)] *)
Definition iocatch {A} (m : IO A) (handler : error -> IO A) : IO A :=
  fun rs w =>
    match m rs w with
    | (Failed e, rs', w') => handler e rs' w'
    | other => other
    end.

Definition of_completion {A} (c : completion A) : IO A :=
  fun rs w =>
    match c with
    | Return a => (Resolved a, rs, w)
    | Throw e => (Failed e, rs, w)
    end.

Definition issue (c : command) (w : world) : world :=
  mkWorld (issued w ++ [c]) (files w) (denied w) (open_handles w) (diagnostics w).

(** [client.send(method, params)] *)
Definition client_send (c : command) : IO response :=
  fun rs w =>
    match rs with
    | [] => (Hanging, [], issue c w)
    | Result r :: rest => (Resolved r, rest, issue c w)
    | Failure e :: rest => (Failed e, rest, issue c w)
    | Silence :: rest => (Hanging, rest, issue c w)
    end.

(** Modelled from the spec: [debugError] (a logger made by ./Debug.js,
    whose source is not available), the low-severity diagnostic channel. *)
Definition debugError (e : error) : IO unit :=
  fun rs w =>
    (Resolved tt, rs,
     mkWorld (issued w) (files w) (denied w) (open_handles w) (diagnostics w ++ [e])).

(** An optional string that is truthy. *)
Definition given (x : option string) : option string :=
  match x with
  | Some s => if truthy_string s then Some s else None
  | None => None
  end.

(** *** Object release *)

Record remoteObject : Type := mkRemoteObject { objectId : option string }.

Definition releaseObject (o : remoteObject) : IO unit :=
  match given (objectId o) with
  | None => ioret tt
  | Some id =>
      iocatch
        (iobind (client_send (mkCommand "Runtime.releaseObject" id)) (fun _ => ioret tt))
        (fun e => debugError e)
  end.

(** *** Files *)

(** [Deno.open(path, { create: true, write: true })]: the file is created
    when it does not exist and is otherwise left as it is (neither
    truncated nor opened for appending); writing starts at offset 0. *)
Definition Deno_open (path : string) : IO file_handle :=
  fun rs w =>
    if bool_decide (path ∈ denied w) then
      (Failed (mkError PermissionDenied path), rs, w)
    else
      (Resolved (mkHandle path 0), rs,
       mkWorld (issued w)
               (match files w !! path with
                | Some _ => files w
                | None => <[path := []]> (files w)
                end)
               (denied w) (path :: open_handles w) (diagnostics w)).

(** Writing [arr] into [old] at offset [pos]. *)
Definition write_at (old : bytes) (pos : nat) (arr : bytes) : bytes :=
  take pos old ++ arr ++ drop (pos + length arr) old.

(** [Deno.writeAll(fileHandle, arr)]: writes at the cursor and advances
    it. *)
Definition Deno_writeAll (fh : file_handle) (arr : bytes) : IO file_handle :=
  fun rs w =>
    (Resolved (mkHandle (fh_path fh) (fh_cursor fh + length arr)), rs,
     mkWorld (issued w)
             (<[fh_path fh := write_at (default [] (files w !! fh_path fh)) (fh_cursor fh) arr]>
                (files w))
             (denied w) (open_handles w) (diagnostics w)).

(** [fileHandle.close()] *)
Definition close_file (fh : file_handle) : IO unit :=
  fun rs w =>
    (Resolved tt, rs,
     mkWorld (issued w) (files w) (denied w)
             (remove_first (fh_path fh) (open_handles w)) (diagnostics w)).

(** [new TextEncoder().encode(s)]: a string is kept as the bytes of its
    UTF-8 encoding. *)
Definition TextEncoder_encode (s : string) : bytes := list_byte_of_string s.

(** *** Stream reader *)

Section StreamReader.

(** The two functions imported from ../../vendor/std.ts. *)
Variable base64Decode : string -> completion bytes.
Variable concatUint8Array : list bytes -> completion bytes.

(** The chunk of one response. *)
Definition decode_chunk (r : response) : completion bytes :=
  if base64Encoded r then base64Decode (data r)
  else Return (TextEncoder_encode (data r)).

(** The body of the [while (!eof)] loop after the response has
    arrived. *)
Definition on_response (path : option string) (fileHandle : option file_handle)
    (arrs : list bytes) (r : response)
  : IO (bool * list bytes * option file_handle) :=
  iobind (of_completion (decode_chunk r)) (fun arr =>
  let arrs := (arrs ++ [arr])%list in
  match given path with
  | Some _ =>
      match fileHandle with
      | Some fh =>
          iobind (Deno_writeAll fh arr) (fun fh' => ioret (eof r, arrs, Some fh'))
      | None => of_completion (Throw (mkError TypeError "fileHandle is undefined"))
      end
  | None => ioret (eof r, arrs, fileHandle)
  end).

(** The loop.  Each round sends one [IO.read] and consumes one reply, so
    the recursion is on the replies still to come; the first match
    spells out [client_send], and the body of the loop leaves the
    replies alone. *)
Fixpoint read_loop (handle : string) (path : option string)
    (fileHandle : option file_handle)
    (arrs : list bytes) (rs : list reply) (w : world) {struct rs}
  : settlement (list bytes * option file_handle) * list reply * world :=
  let w1 := issue (mkCommand "IO.read" handle) w in
  match rs with
  | [] => (Hanging, [], w1)
  | Silence :: rest => (Hanging, rest, w1)
  | Failure e :: rest => (Failed e, rest, w1)
  | Result r :: rest =>
      match on_response path fileHandle arrs r rest w1 with
      | (Resolved (stop, arrs', fileHandle'), rest', w2) =>
          if stop then (Resolved (arrs', fileHandle'), rest, w2)
          else read_loop handle path fileHandle' arrs' rest w2
      | (Failed e, rest', w2) => (Failed e, rest, w2)
      | (Hanging, rest', w2) => (Hanging, rest, w2)
      end
  end.

Definition readProtocolStream (handle : string) (path : option string)
  : IO (option bytes) :=
  iobind (match given path with
          | Some p => iobind (Deno_open p) (fun fh => ioret (Some fh))
          | None => ioret None
          end) (fun fileHandle =>
  iobind (read_loop handle path fileHandle []) (fun '(arrs, fileHandle) =>
  iobind (match fileHandle with
          | Some fh => close_file fh
          | None => ioret tt
          end) (fun _ =>
  iobind (client_send (mkCommand "IO.close" handle)) (fun _ =>
  ioret (match concatUint8Array arrs with
         | Return resultArr => Some resultArr
         | Throw _ => None
         end))))).

End StreamReader.

(** Modelled from the spec: [concatUint8Array] (re-exported by
    ../../vendor/std.ts, whose source is not available): the arrays one
    after the other, in order. *)
Definition concat_std (arrs : list bytes) : completion bytes :=
  Return (concat arrs).

End Protocol.

(** ** Exception messages *)

Module Exceptions.

(** One frame of [exceptionDetails.stackTrace.callFrames]. *)
Record callFrame : Type := mkCallFrame {
  functionName : string;
  url : string;
  lineNumber : Z;
  columnNumber : Z
}.

(** The fields of [exceptionDetails.exception] that are read. *)
Record exceptionObject : Type := mkException {
  ex_description : option string;
  ex_value : json
}.

Record exceptionDetails : Type := mkDetails {
  ed_exception : option exceptionObject;
  ed_text : string;
  ed_stackTrace : option (list callFrame)
}.

Definition newline : string := String "010"%char EmptyString.

(** The body of the [for] loop: the message with the line of one frame
    added. *)
Definition add_callframe (message : string) (callframe : callFrame) : string :=
  let location :=
    url callframe ++ ":" ++ Number_toString (lineNumber callframe) ++ ":" ++
    Number_toString (columnNumber callframe) in
  let functionName :=
    if truthy_string (functionName callframe) then functionName callframe
    else "<anonymous>" in
  message ++ (newline ++ "    at " ++ functionName ++ " (" ++ location ++ ")").

(** The result is a string, or whatever [exception.value] holds when the
    description is missing or empty. *)
Definition getExceptionMessage (exceptionDetails : exceptionDetails) : json :=
  match ed_exception exceptionDetails with
  | Some exception =>
      match ex_description exception with
      | Some description =>
          if truthy_string description then JStr description else ex_value exception
      | None => ex_value exception
      end
  | None =>
      let message := ed_text exceptionDetails in
      match ed_stackTrace exceptionDetails with
      | Some callFrames => JStr (fold_left add_callframe callFrames message)
      | None => JStr message
      end
  end.

(** The line a frame contributes, on its own. *)
Definition frame_line (callframe : callFrame) : string :=
  add_callframe EmptyString callframe.

End Exceptions.

(** ** Values of remote objects *)

Module RemoteValues.

(** The fields of a remote object that [valueFromRemoteObject] reads. *)
Record remote : Type := mkRemote {
  r_objectId : option string;
  r_type : string;
  r_unserializableValue : option string;
  r_value : json
}.

(** What [valueFromRemoteObject] can return: plain data, a bigint, or one
    of the four numbers that JSON cannot carry. *)
Inductive extracted : Type :=
| Plain (j : json)
| BigIntValue (n : Z)
| NegativeZero
| NotANumber
| PositiveInfinity
| NegativeInfinity.

(** [s.replace("n", "")]: the first [n] is dropped. *)
Fixpoint drop_first_n (s : string) : string :=
  match s with
  | EmptyString => EmptyString
  | String c rest =>
      if Ascii.eqb c "n"%char then rest else String c (drop_first_n rest)
  end.

Section ValueFromRemoteObject.

(** The runtime: whether it has [BigInt], and what [BigInt(text)] gives. *)
Variable has_BigInt : bool.
Variable BigInt : string -> completion Z.

Definition valueFromRemoteObject (remoteObject : remote) : completion extracted :=
  let! _ := assert (negb (match Protocol.given (r_objectId remoteObject) with
                          | Some _ => true
                          | None => false
                          end))
                   "Cannot extract value when objectId is given" in
  match Protocol.given (r_unserializableValue remoteObject) with
  | Some unserializableValue =>
      if bool_decide (r_type remoteObject = "bigint") && has_BigInt then
        let! n := BigInt (drop_first_n unserializableValue) in
        Return (BigIntValue n)
      else if bool_decide (unserializableValue = "-0") then Return NegativeZero
      else if bool_decide (unserializableValue = "NaN") then Return NotANumber
      else if bool_decide (unserializableValue = "Infinity") then Return PositiveInfinity
      else if bool_decide (unserializableValue = "-Infinity") then Return NegativeInfinity
      else Throw (mkError PlainError
                    ("Unsupported unserializable value: " ++ unserializableValue))
  | None => Return (Plain (r_value remoteObject))
  end.

End ValueFromRemoteObject.

(** The four tokens the [switch] knows. *)
Definition known_tokens : list string := ["-0"; "NaN"; "Infinity"; "-Infinity"].

End RemoteValues.

(** ** Waiting for a node to be visible or hidden *)

Module Visibility.

Section CheckWaitForOptions.

(** The numbers of a bounding box, with their truthiness (non-zero and not
    [NaN]). *)
Variable number : Type.
Variable truthy : number -> bool.

Record rect : Type := mkRect { top : number; bottom : number; width : number; height : number }.

(** An element as [checkWaitForOptions] sees it: its computed style, which
    may be missing, with the [visibility] property, and its bounding box. *)
Record element : Type := mkElement {
  computed_visibility : option string;
  boundingClientRect : rect
}.

(** A node is an element or a text node with its parent element, if any. *)
Inductive node : Type :=
| ElementNode (e : element)
| TextNode (parentElement : option element).

(** What the function returns: the node, [null], or the flag
    [waitForHidden] itself. *)
Inductive checked : Type :=
| TheNode (n : node)
| Null
| Flag (b : bool).

Definition hasVisibleBoundingBox (e : element) : bool :=
  let r := boundingClientRect e in
  truthy (top r) || truthy (bottom r) || truthy (width r) || truthy (height r).

(** [style && style.visibility !== "hidden" && hasVisibleBoundingBox()]:
    [None] is the missing style itself. *)
Definition isVisible (e : element) : option bool :=
  match computed_visibility e with
  | None => None
  | Some visibility =>
      Some (negb (bool_decide (visibility = "hidden")) && hasVisibleBoundingBox e)
  end.

(** [flag === v] and [flag === !v] for a boolean flag. *)
Definition strictly_equal (flag : bool) (v : option bool) : bool :=
  match v with
  | Some b => Bool.eqb flag b
  | None => false
  end.

Definition strictly_equal_not (flag : bool) (v : option bool) : bool :=
  match v with
  | Some b => Bool.eqb flag (negb b)
  | None => Bool.eqb flag true
  end.

Definition checkWaitForOptions (n : option node) (waitForVisible waitForHidden : bool)
  : completion checked :=
  match n with
  | None => Return (Flag waitForHidden)
  | Some nd =>
      if negb waitForVisible && negb waitForHidden then Return (TheNode nd)
      else
        let element := match nd with
                       | TextNode parentElement => parentElement
                       | ElementNode e => Some e
                       end in
        match element with
        | None =>
            Throw (mkError TypeError
                     "Failed to execute 'getComputedStyle' on 'Window': parameter 1 is not of type 'Element'.")
        | Some e =>
            let success :=
              strictly_equal waitForVisible (isVisible e) ||
              strictly_equal_not waitForHidden (isVisible e) in
            Return (if success then TheNode nd else Null)
        end
  end.

(** Visibility as a plain boolean. *)
Definition visible (e : element) : bool := default false (isVisible e).

End CheckWaitForOptions.

End Visibility.

(* ===================================================================== *)
(** * Part II: properties                                                 *)
(* ===================================================================== *)

Import Serializer Bridge Waiter Protocol.

(** ** Evaluation serializer *)

Section SerializerFacts.

Example evaluationString_renders_arguments :
  evaluationString (ScriptFunction "(a, b, c) => a")
    [JUndefined; JObj [("id", JNum 7); ("skip", JUndefined)]; JArr [JBool true; JUndefined]] =
  Return (String.concat (String dquote "")
            ["((a, b, c) => a)(undefined,{"; "id"; ":7},[true,null])"]).
Proof. reflexivity. Qed.

Lemma length_append (a b : string) :
  String.length (a ++ b) = (String.length a + String.length b)%nat.
Proof. induction a as [|c a IH]; simpl; [reflexivity | now rewrite IH]. Qed.

(** [JSON.stringify] yields [undefined] on [undefined] only. *)
Lemma JSON_stringify_defined (v : json) :
  v <> JUndefined -> exists s, JSON_stringify v = Some s.
Proof. destruct v; simpl; intros Hv; try congruence; eauto. Qed.

Lemma serializeArgument_defined (arg : json) :
  exists s, serializeArgument arg = Some s /\
            (arg = JUndefined -> s = "undefined") /\
            (arg <> JUndefined -> JSON_stringify arg = Some s).
Proof.
  destruct arg; simpl; eexists; (split; [reflexivity |]); split;
    intros H; congruence.
Qed.




(** C9: a string script without arguments is returned as it is; it does
    not get the invocation form a function with the same text gets. *)
Theorem evaluationString_string_identity (s : string) :
  evaluationString (ScriptString s) [] = Return s /\
  evaluationString (ScriptString s) [] <> evaluationString (ScriptFunction s) [].
Proof.
  split; [reflexivity |].
  intros H. cbn in H. injection H as H.
  apply (f_equal String.length) in H.
  rewrite !length_append in H. simpl in H. lia.
Qed.

(** C7: a string script with at least one argument makes
    [evaluationString] throw the contract violation at once; whatever the
    caller would do with the script afterwards (send it to the engine)
    does not happen: the replies and the world are untouched. *)
Theorem evaluationString_string_with_arguments (s : string) (args : list json) :
  args <> [] ->
  evaluationString (ScriptString s) args =
    Throw (mkError ArgumentError "Cannot evaluate a string with arguments") /\
  forall (A : Type) (k : string -> IO A) (rs : list reply) (w : world),
    iobind (of_completion (evaluationString (ScriptString s) args)) k rs w =
      (Failed (mkError ArgumentError "Cannot evaluate a string with arguments"), rs, w).
Proof.
  intros Hargs. destruct args as [|arg args]; [congruence |].
  split; [reflexivity |]. intros A k rs w. reflexivity.
Qed.

Lemma evaluationString_string_with_arguments_witness :
  [JNull] <> [] /\
  evaluationString (ScriptString "1 + 1") [JNull] =
    Throw (mkError ArgumentError "Cannot evaluate a string with arguments").
Proof.
  split; [discriminate |].
  apply (evaluationString_string_with_arguments "1 + 1" [JNull]). discriminate.
Defined.

End SerializerFacts.

(** ** Binding bridge *)

Section BridgeFacts.

(** The generated script applies the delivery function to the very name
    and sequence number, JSON-encoded. *)
Lemma delivery_script_shape (d : delivery) (name : string) (seq : Z) :
  exists source rest,
    delivery_script d name seq =
      Return ("(" ++ source ++ ")(" ++
              String.concat "," (QuoteJSONString name :: Number_toString seq :: rest) ++
              ")").
Proof.
  destruct d as [result | message stack | value]; simpl.
  - destruct (serializeArgument_defined result) as (r & Hr & _).
    exists deliverResult_source, [r].
    unfold pageBindingDeliverResultString, evaluationString, Array_join.
    simpl map. now rewrite Hr.
  - exists deliverError_source, [QuoteJSONString message; QuoteJSONString stack].
    reflexivity.
  - destruct (serializeArgument_defined value) as (r & Hr & _).
    exists deliverErrorValue_source, [r].
    unfold pageBindingDeliverErrorValueString, evaluationString, Array_join.
    simpl map. now rewrite Hr.
Qed.

Lemma deliver_unfold (d : delivery) (name : string) (seq : Z) :
  deliver d name seq =
    pbind (callbacks_get name seq (entry_property d)) (fun p =>
    pbind (settle_promise p (delivered d)) (fun _ => callbacks_delete name seq)).
Proof. destruct d; reflexivity. Qed.

(** Without an entry, a delivery throws and leaves the page as it is. *)
Lemma deliver_not_found (d : delivery) (name : string) (seq : Z) (pg : page) :
  entry pg name seq = None ->
  exists e, deliver d name seq pg = (Throw e, pg) /\ err_class e = TypeError.
Proof.
  unfold entry. intros He. rewrite deliver_unfold.
  unfold pbind, callbacks_get, pbind, window_callbacks.
  destruct (window pg !! name) as [f|]; [| eexists; split; reflexivity].
  destruct (callbacks f) as [cbs|]; [| eexists; split; reflexivity].
  simpl. rewrite He. eexists; split; reflexivity.
Qed.

(** Calling an installed binding parks a pending promise under the next
    sequence number and hands the call to the host. *)
Lemma call_creates_pending_entry (pg : page) (name : string) (type : json)
    (me : fn_object) (args : list json) :
  window pg !! name = Some me ->
  kind me = Wrapper type name (Some Native) ->
  let seq := default 0 (lastSeq me) + 1 in
  let p := length (promises pg) in
  exists pg',
    call_global name args pg = (Return (Some p), pg') /\
    pending_entry pg' name seq p /\
    length (outbox pg') = S (length (outbox pg)).
Proof.
  intros Hme Hkind. cbn zeta.
  unfold call_global. rewrite Hme, Hkind. cbn [call]. rewrite Hme.
  eexists. split; [reflexivity |]. split.
  - unfold pending_entry. cbn [window promises].
    eexists _, _. rewrite lookup_insert_eq. cbn [callbacks].
    split; [reflexivity |]. split; [reflexivity |].
    split; [apply lookup_insert_eq |].
    now rewrite lookup_app_r, Nat.sub_diag.
  - cbn [outbox]. rewrite length_app. cbn [length]. lia.
Qed.

(** C5: with a pending entry for the sequence number, each of the three
    deliveries succeeds, settles the promise of that entry (and no other
    promise) as the delivery says, and removes the entry and no other; a
    further lookup of the sequence number finds nothing, and a further
    delivery of any kind throws a [TypeError] and changes nothing, so the
    promise keeps its first settlement. *)
Theorem delivery_settles_once_and_removes (pg : page) (name : string) (seq : Z)
    (p : nat) (d : delivery) :
  pending_entry pg name seq p ->
  exists pg',
    deliver d name seq pg = (Return tt, pg') /\
    promises pg' !! p = Some (delivered d) /\
    (forall q, q <> p -> promises pg' !! q = promises pg !! q) /\
    entry pg' name seq = None /\
    (forall seq', seq' <> seq -> entry pg' name seq' = entry pg name seq') /\
    (forall d', exists e,
        deliver d' name seq pg' = (Throw e, pg') /\ err_class e = TypeError).
Proof.
  intros (f & cbs & Hf & Hcbs & Hseq & Hp).
  eexists. split.
  { rewrite deliver_unfold.
    unfold pbind, callbacks_get, pbind, window_callbacks, settle_promise, callbacks_delete.
    simpl. rewrite Hf, Hcbs. simpl. rewrite Hseq. simpl.
    rewrite Hf, Hcbs, Hp. reflexivity. }
  assert (Hentry : forall seq',
             entry {| window := <[name := mkFn (kind f) (Some (delete seq cbs)) (lastSeq f)]> (window pg);
                      promises := <[p := settle (delivered d) Pending]> (promises pg);
                      outbox := outbox pg |} name seq' = delete seq cbs !! seq').
  { intros seq'. unfold entry. simpl. now rewrite lookup_insert_eq. }
  split; [| split; [| split; [| split]]]; simpl.
  - apply list_lookup_insert_eq. now apply lookup_lt_Some in Hp.
  - intros q Hq. now apply list_lookup_insert_ne.
  - rewrite Hentry. apply lookup_delete_eq.
  - intros seq' Hne. rewrite Hentry. rewrite lookup_delete_ne by congruence.
    unfold entry. now rewrite Hf, Hcbs.
  - intros d'. apply deliver_not_found. rewrite Hentry. apply lookup_delete_eq.
Qed.

(** A page in which the binding [foo] was installed and called once. *)
Lemma delivery_settles_once_and_removes_witness :
  let pg0 := mkPage {[ "foo" := mkFn Native None None ]} [] [] in
  let pg1 := snd (addPageBinding (JStr "exposedFun") "foo" pg0) in
  let pg2 := snd (call_global "foo" [JNum 7] pg1) in
  pending_entry pg2 "foo" 1 0 /\
  exists pg', deliver (OfResult (JNum 8)) "foo" 1 pg2 = (Return tt, pg') /\
              promises pg' !! 0%nat = Some (Fulfilled (Val (JNum 8))) /\
              entry pg' "foo" 1 = None.
Proof.
  intros pg0 pg1 pg2.
  assert (Hpending : pending_entry pg2 "foo" 1 0).
  { eexists _, _. repeat split; vm_compute; reflexivity. }
  split; [exact Hpending |].
  destruct (delivery_settles_once_and_removes pg2 "foo" 1 0 (OfResult (JNum 8)) Hpending)
    as (pg' & Hrun & Hp & _ & Hgone & _).
  exists pg'. repeat split; assumption.
Defined.

End BridgeFacts.

(** ** Object release *)

Section ReleaseFacts.

(** C8: [releaseObject] never settles with an error, whatever the object
    and whatever the engine answers.  Without a usable [objectId] it
    resolves without issuing anything; when the release command is answered
    with an error, it still resolves, and the error has been handed to
    [debugError]. *)
Theorem releaseObject_never_throws (o : remoteObject) (rs : list reply) (w : world) :
  (forall e rs' w', releaseObject o rs w <> (Failed e, rs', w')) /\
  (given (objectId o) = None -> releaseObject o rs w = (Resolved tt, rs, w)) /\
  (forall id e rest,
      given (objectId o) = Some id -> rs = Failure e :: rest ->
      releaseObject o rs w =
        (Resolved tt, rest,
         mkWorld (issued w ++ [mkCommand "Runtime.releaseObject" id])
                 (files w) (denied w) (open_handles w) (diagnostics w ++ [e]))).
Proof.
  unfold releaseObject. split; [| split].
  - intros e rs' w'. destruct (given (objectId o)) as [id|]; [| discriminate].
    unfold iocatch, iobind, client_send, debugError, ioret.
    destruct rs as [|[r | e' | ] rest]; discriminate.
  - intros ->. reflexivity.
  - intros id e rest -> ->. reflexivity.
Qed.

Lemma releaseObject_never_throws_witness :
  let o := mkRemoteObject (Some "obj-1") in
  let gone := mkError RemoteCommandError "Cannot find context with specified id" in
  let w := mkWorld [] ∅ ∅ [] [] in
  releaseObject o [Failure gone] w =
    (Resolved tt, [],
     mkWorld [mkCommand "Runtime.releaseObject" "obj-1"] ∅ ∅ [] [gone]) /\
  releaseObject (mkRemoteObject None) [Failure gone] w = (Resolved tt, [Failure gone], w).
Proof.
  intros o gone w. split.
  - apply (proj2 (proj2 (releaseObject_never_throws o [Failure gone] w)) "obj-1" gone []);
      reflexivity.
  - apply (proj1 (proj2 (releaseObject_never_throws (mkRemoteObject None) [Failure gone] w))).
    reflexivity.
Defined.

End ReleaseFacts.

(** ** Stream reader *)

Section StreamFacts.

Local Open Scope list_scope.

Variable base64Decode : string -> completion bytes.
Variable concatUint8Array : list bytes -> completion bytes.
Variable handle : string.

Local Abbreviation io_read := (mkCommand "IO.read" handle).
Local Abbreviation io_close := (mkCommand "IO.close" handle).
Local Abbreviation decodes_to := (fun r b => decode_chunk base64Decode r = Return b).
Local Abbreviation loop := (read_loop base64Decode handle).

Lemma write_at_nil (old : bytes) (pos : nat) : write_at old pos [] = old.
Proof. unfold write_at. simpl. rewrite Nat.add_0_r. apply take_drop. Qed.

Lemma write_at_length (old arr : bytes) (pos : nat) :
  (pos <= length old)%nat -> (pos + length arr <= length (write_at old pos arr))%nat.
Proof.
  intros Hpos. unfold write_at. rewrite !length_app, length_take. lia.
Qed.

(** Two writes in a row are one write of the two arrays. *)
Lemma write_at_app (old a b : bytes) (pos : nat) :
  (pos <= length old)%nat ->
  write_at (write_at old pos a) (pos + length a) b = write_at old pos (a ++ b).
Proof.
  intros Hpos. unfold write_at.
  assert (Hlen : length (take pos old) = pos) by (rewrite length_take; lia).
  rewrite (app_assoc (take pos old) a).
  rewrite (take_app_length' (take pos old ++ a)) by (rewrite length_app; lia).
  rewrite (drop_app_add' (take pos old ++ a) _ (pos + length a) (length b))
    by (rewrite length_app; lia).
  rewrite drop_drop, length_app, <- !app_assoc.
  now rewrite Nat.add_assoc.
Qed.

(** Writing from offset 0: the new bytes, then what the file held beyond
    them. *)
Lemma write_at_start (old out : bytes) :
  write_at old 0 out = out ++ drop (length out) old.
Proof. reflexivity. Qed.

Lemma repeat_snoc {A} (x : A) (n : nat) (l : list A) :
  (l ++ [x]) ++ repeat x n = l ++ repeat x (S n).
Proof. now rewrite <- app_assoc. Qed.

Lemma repeat_S_end {A} (x : A) (n : nat) : repeat x (S n) = repeat x n ++ [x].
Proof. cbn [repeat]. apply repeat_cons. Qed.

(** The body of the loop does not touch the replies. *)
Lemma on_response_replies (path : option string) (fh : option file_handle)
    (arrs : list bytes) (r : response) (rs : list reply) (w : world) :
  snd (fst (on_response base64Decode path fh arrs r rs w)) = rs.
Proof.
  unfold on_response, iobind, of_completion.
  destruct (decode_chunk base64Decode r); [| reflexivity].
  destruct (given path); [| reflexivity].
  destruct fh; reflexivity.
Qed.

(** The loop equation: [read_loop] is the [while (!eof)] loop written with
    [client_send]. *)
Lemma read_loop_equation (path : option string) (fh : option file_handle)
    (arrs : list bytes) (rs : list reply) (w : world) :
  loop path fh arrs rs w =
  iobind (client_send io_read) (fun r =>
    iobind (on_response base64Decode path fh arrs r) (fun out =>
      let '(stop, arrs', fh') := out in
      if stop then ioret (arrs', fh') else loop path fh' arrs')) rs w.
Proof.
  destruct rs as [|[r | e |] rest]; try reflexivity.
  cbn [read_loop]. unfold iobind at 1, client_send.
  unfold iobind at 1.
  pose proof (on_response_replies path fh arrs r rest (issue io_read w)) as Hrs.
  destruct (on_response base64Decode path fh arrs r rest (issue io_read w))
    as [[[[[stop arrs'] fh'] | e | ] rest'] w2]; cbn [fst snd] in Hrs; subst rest';
    try reflexivity.
  destruct stop; reflexivity.
Qed.

(** The loop over chunks that decode and do not end the stream, without a
    destination. *)
Lemma read_loop_plain (path : option string) (chunks : list response) :
  given path = None ->
  forall (bs : list bytes) (fh : option file_handle) (arrs : list bytes)
         (rs : list reply) (w : world),
    Forall (fun r => eof r = false) chunks ->
    Forall2 decodes_to chunks bs ->
    loop path fh arrs (map Result chunks ++ rs) w =
    loop path fh (arrs ++ bs) rs
         (mkWorld (issued w ++ repeat io_read (length chunks))
                  (files w) (denied w) (open_handles w) (diagnostics w)).
Proof.
  intros Hpath. induction chunks as [|r chunks IH]; intros bs fh arrs rs w Heof Hdec.
  - inversion Hdec; subst. simpl. rewrite !app_nil_r. now destruct w.
  - inversion Hdec as [|? b ? bs' Hb Hbs]; subst.
    inversion Heof as [|? ? Hr Heof']; subst.
    cbn [map app read_loop].
    unfold on_response, iobind, of_completion. rewrite Hb, Hpath.
    unfold ioret. rewrite Hr.
    rewrite (IH bs' fh _ rs _ Heof' Hbs).
    unfold issue. cbn [issued files denied open_handles diagnostics].
    rewrite repeat_snoc. rewrite <- app_assoc. reflexivity.
Qed.

(** The same loop with a destination: the handle's cursor is inside the
    file, and the chunks land one after the other from the cursor on. *)
Lemma read_loop_tee (path : option string) (p : string) (chunks : list response) :
  given path = Some p ->
  forall (bs : list bytes) (c : nat) (content : bytes) (arrs : list bytes)
         (rs : list reply) (w : world),
    Forall (fun r => eof r = false) chunks ->
    Forall2 decodes_to chunks bs ->
    files w !! p = Some content ->
    (c <= length content)%nat ->
    loop path (Some (mkHandle p c)) arrs (map Result chunks ++ rs) w =
    loop path (Some (mkHandle p (c + length (concat bs)))) (arrs ++ bs) rs
         (mkWorld (issued w ++ repeat io_read (length chunks))
                  (<[p := write_at content c (concat bs)]> (files w))
                  (denied w) (open_handles w) (diagnostics w)).
Proof.
  intros Hpath. induction chunks as [|r chunks IH];
    intros bs c content arrs rs w Heof Hdec Hfile Hc.
  - inversion Hdec; subst. simpl. rewrite !app_nil_r, Nat.add_0_r, write_at_nil.
    rewrite insert_id by exact Hfile. now destruct w.
  - inversion Hdec as [|? b ? bs' Hb Hbs]; subst.
    inversion Heof as [|? ? Hr Heof']; subst.
    cbn [map app read_loop].
    unfold on_response, iobind, of_completion. rewrite Hb, Hpath.
    unfold Deno_writeAll, ioret. cbn [fh_path fh_cursor issue files].
    rewrite Hfile, Hr. cbn [default].
    rewrite (IH bs' (c + length b)%nat (write_at content c b) _ rs _ Heof' Hbs);
      [| cbn [files]; apply lookup_insert_eq | now apply write_at_length].
    unfold issue, id. cbn [issued files denied open_handles diagnostics concat].
    rewrite repeat_snoc, insert_insert_eq, write_at_app by exact Hc.
    rewrite length_app, Nat.add_assoc, <- app_assoc. reflexivity.
Qed.

(** What [readProtocolStream] reports for the arrays it collected: the
    [finally] block returns [resultArr], which is still [null] when the
    concatenation threw. *)
Local Abbreviation reported := (fun arrs : list bytes =>
  match concatUint8Array arrs with
  | Return resultArr => Some resultArr
  | Throw _ => None
  end).

(** A complete run without a destination. *)
Lemma readProtocolStream_plain (path : option string) (init : list response)
    (last ack : response) (bs : list bytes) (rest : list reply) (w : world) :
  given path = None ->
  Forall (fun r => eof r = false) init ->
  eof last = true ->
  Forall2 decodes_to (init ++ [last]) bs ->
  readProtocolStream base64Decode concatUint8Array handle path
    (map Result (init ++ [last]) ++ Result ack :: rest) w =
  (Resolved (reported bs), rest,
   mkWorld (issued w ++ repeat io_read (length (init ++ [last])) ++ [io_close])
           (files w) (denied w) (open_handles w) (diagnostics w)).
Proof.
  intros Hpath Heof Hlast Hdec.
  apply Forall2_app_inv_l in Hdec as (bs1 & bl & Hbs1 & Hbl & ->).
  inversion Hbl as [|? b ? ? Hb Hnil]; subst. inversion Hnil; subst.
  unfold readProtocolStream, iobind at 1. rewrite Hpath. unfold ioret at 1.
  unfold iobind at 1.
  rewrite map_app, <- app_assoc, (read_loop_plain path init Hpath bs1 None [] _ w Heof Hbs1).
  cbn [map app read_loop].
  unfold on_response, iobind, of_completion. rewrite Hb, Hpath.
  unfold ioret, client_send, issue. rewrite Hlast.
  cbn [issued files denied open_handles diagnostics].
  rewrite length_app, Nat.add_comm. cbn [length Nat.add].
  rewrite repeat_S_end, <- !app_assoc. reflexivity.
Qed.

(** A complete run with a destination that can be opened. *)
Lemma readProtocolStream_tee (path : option string) (p : string) (init : list response)
    (last ack : response) (bs : list bytes) (rest : list reply) (w : world) :
  given path = Some p ->
  p ∉ denied w ->
  Forall (fun r => eof r = false) init ->
  eof last = true ->
  Forall2 decodes_to (init ++ [last]) bs ->
  readProtocolStream base64Decode concatUint8Array handle path
    (map Result (init ++ [last]) ++ Result ack :: rest) w =
  (Resolved (reported bs), rest,
   mkWorld (issued w ++ repeat io_read (length (init ++ [last])) ++ [io_close])
           (<[p := write_at (default [] (files w !! p)) 0 (concat bs)]> (files w))
           (denied w) (open_handles w) (diagnostics w)).
Proof.
  intros Hpath Hallowed Heof Hlast Hdec.
  apply Forall2_app_inv_l in Hdec as (bs1 & bl & Hbs1 & Hbl & ->).
  inversion Hbl as [|? b ? ? Hb Hnil]; subst. inversion Hnil; subst.
  set (content := default [] (files w !! p)).
  set (files1 := match files w !! p with
                 | Some _ => files w
                 | None => <[p := []]> (files w)
                 end).
  assert (Hfiles1 : files1 !! p = Some content).
  { unfold files1, content. destruct (files w !! p) eqn:E; [exact E |].
    apply lookup_insert_eq. }
  assert (Hover : forall x, <[p := x]> files1 = <[p := x]> (files w)).
  { intros x. unfold files1. destruct (files w !! p); [reflexivity |].
    apply insert_insert_eq. }
  unfold readProtocolStream, iobind at 1. rewrite Hpath.
  unfold iobind at 1, Deno_open. rewrite bool_decide_eq_false_2 by exact Hallowed.
  fold files1. unfold ioret at 1. unfold iobind at 1.
  rewrite map_app, <- app_assoc.
  rewrite (read_loop_tee path p init Hpath bs1 0 content [] _
             (mkWorld (issued w) files1 (denied w) (p :: open_handles w) (diagnostics w))
             Heof Hbs1 Hfiles1)
    by lia.
  cbn [map app read_loop].
  unfold on_response, iobind, of_completion. rewrite Hb, Hpath.
  unfold Deno_writeAll, close_file, ioret, client_send, issue. rewrite Hlast.
  cbn [issued files denied open_handles diagnostics fh_path fh_cursor remove_first].
  rewrite bool_decide_eq_true_2 by reflexivity.
  rewrite lookup_insert_eq. cbn [default from_option]. unfold id.
  rewrite insert_insert_eq, write_at_app by lia.
  rewrite Hover, concat_app. cbn [concat]. rewrite app_nil_r.
  rewrite length_app, Nat.add_comm. cbn [length Nat.add].
  rewrite repeat_S_end, <- !app_assoc. reflexivity.
Qed.

(** The engine stops answering after some chunks: the run is still
    waiting, and the destination already holds what has arrived. *)
Lemma readProtocolStream_tee_interrupted (path : option string) (p : string)
    (chunks : list response) (bs : list bytes) (w : world) :
  given path = Some p ->
  p ∉ denied w ->
  Forall (fun r => eof r = false) chunks ->
  Forall2 decodes_to chunks bs ->
  readProtocolStream base64Decode concatUint8Array handle path (map Result chunks) w =
  (Hanging, [],
   mkWorld (issued w ++ repeat io_read (S (length chunks)))
           (<[p := write_at (default [] (files w !! p)) 0 (concat bs)]> (files w))
           (denied w) (p :: open_handles w) (diagnostics w)).
Proof.
  intros Hpath Hallowed Heof Hdec.
  set (content := default [] (files w !! p)).
  set (files1 := match files w !! p with
                 | Some _ => files w
                 | None => <[p := []]> (files w)
                 end).
  assert (Hfiles1 : files1 !! p = Some content).
  { unfold files1, content. destruct (files w !! p) eqn:E; [exact E |].
    apply lookup_insert_eq. }
  assert (Hover : forall x, <[p := x]> files1 = <[p := x]> (files w)).
  { intros x. unfold files1. destruct (files w !! p); [reflexivity |].
    apply insert_insert_eq. }
  unfold readProtocolStream, iobind at 1. rewrite Hpath.
  unfold iobind at 1, Deno_open. rewrite bool_decide_eq_false_2 by exact Hallowed.
  fold files1. unfold ioret at 1. unfold iobind at 1.
  rewrite <- (app_nil_r (map Result chunks)).
  rewrite (read_loop_tee path p chunks Hpath bs 0 content [] []
             (mkWorld (issued w) files1 (denied w) (p :: open_handles w) (diagnostics w))
             Heof Hdec Hfiles1)
    by lia.
  cbn [read_loop]. unfold issue. cbn [issued files denied open_handles diagnostics].
  now rewrite Hover, repeat_S_end, app_assoc.
Qed.

(** A chunk that fails to decode ends the run with the decoder's error;
    nothing is issued after the read that brought the chunk. *)
Lemma readProtocolStream_decode_failure (path : option string) (init : list response)
    (bad : response) (bs : list bytes) (e : error) (rest : list reply) (w : world) :
  (forall p, given path = Some p -> p ∉ denied w) ->
  Forall (fun r => eof r = false) init ->
  Forall2 decodes_to init bs ->
  decode_chunk base64Decode bad = Throw e ->
  exists w',
    readProtocolStream base64Decode concatUint8Array handle path
      (map Result (init ++ [bad]) ++ rest) w = (Failed e, rest, w') /\
    issued w' = issued w ++ repeat io_read (length (init ++ [bad])) /\
    open_handles w' = match given path with
                      | Some p => p :: open_handles w
                      | None => open_handles w
                      end.
Proof.
  intros Hallowed Heof Hdec Hbad.
  assert (Hcount : forall l : list command,
             (l ++ repeat io_read (length init)) ++ [io_read] =
             l ++ repeat io_read (length (init ++ [bad]))).
  { intros l. rewrite length_app, Nat.add_comm. cbn [length Nat.add].
    now rewrite repeat_S_end, app_assoc. }
  destruct (given path) as [p|] eqn:Hpath.
  - specialize (Hallowed p eq_refl).
    set (files1 := match files w !! p with
                   | Some _ => files w
                   | None => <[p := []]> (files w)
                   end).
    assert (Hfiles1 : files1 !! p = Some (default [] (files w !! p))).
    { unfold files1. destruct (files w !! p) eqn:E; [exact E |].
      apply lookup_insert_eq. }
    unfold readProtocolStream, iobind at 1. rewrite Hpath.
    unfold iobind at 1, Deno_open. rewrite bool_decide_eq_false_2 by exact Hallowed.
    fold files1. unfold ioret at 1. unfold iobind at 1.
    rewrite map_app, <- app_assoc.
    rewrite (read_loop_tee path p init Hpath bs 0 _ [] _
               (mkWorld (issued w) files1 (denied w) (p :: open_handles w) (diagnostics w))
               Heof Hdec Hfiles1)
      by lia.
    cbn [map app read_loop].
    unfold on_response, iobind, of_completion. rewrite Hbad.
    eexists. split; [reflexivity |].
    unfold issue. cbn [issued open_handles]. now rewrite Hcount.
  - unfold readProtocolStream, iobind at 1. rewrite Hpath. unfold ioret at 1.
    unfold iobind at 1.
    rewrite map_app, <- app_assoc,
      (read_loop_plain path init Hpath bs None [] _ w Heof Hdec).
    cbn [map app read_loop].
    unfold on_response, iobind, of_completion. rewrite Hbad.
    eexists. split; [reflexivity |].
    unfold issue. cbn [issued open_handles]. now rewrite Hcount.
Qed.

End StreamFacts.

Section StreamClaims.

Local Open Scope list_scope.

Lemma count_close_once (handle : string) (l : list command) (n : nat) :
  count_occ command_eq_dec
    (drop (length l)
       (l ++ repeat (mkCommand "IO.read" handle) n ++ [mkCommand "IO.close" handle]))
    (mkCommand "IO.close" handle) = 1%nat.
Proof.
  rewrite drop_app_length, count_occ_app, count_occ_repeat_neq by discriminate.
  cbn [count_occ]. now destruct (command_eq_dec _ _).
Qed.

(** Chunks decoded as the response says: through [base64Decode] when the
    response is flagged [base64Encoded], as the UTF-8 bytes of the text
    otherwise. *)
Lemma flagged_chunks_decode (base64Decode : string -> completion bytes)
    (chunks : list response) (bs : list bytes) :
  Forall2 (fun r b => if base64Encoded r then base64Decode (data r) = Return b
                      else b = TextEncoder_encode (data r)) chunks bs ->
  Forall2 (fun r b => decode_chunk base64Decode r = Return b) chunks bs.
Proof.
  intros Hdec. eapply Forall2_impl; [exact Hdec |].
  intros r b H. cbv beta in H. unfold decode_chunk.
  destruct (base64Encoded r); [exact H | now subst b].
Qed.

(** X17: when the replies to [IO.read] bring chunks of which the last one
    and only the last one carries the end-of-stream flag, every chunk
    flagged [base64Encoded] is decoded by [base64Decode] and every other
    chunk is taken as the UTF-8 bytes of its text, and [IO.close] is
    answered, then [readProtocolStream] resolves with what
    [concatUint8Array] makes of the decoded chunks in arrival order ([null]
    when it throws), having issued one [IO.read] per chunk and then exactly
    one [IO.close]; the file handle it opened is closed again.  Without a
    destination no file changes.  With a destination no other file changes,
    the destination starts with the decoded chunks one after the other and
    holds exactly them when it held no more bytes than that before (so also
    when it did not exist), and if the engine stops answering after some of
    the chunks the destination already starts with those. *)
Theorem readProtocolStream_reassembles
    (base64Decode : string -> completion bytes)
    (concatUint8Array : list bytes -> completion bytes)
    (handle : string) (path : option string)
    (init : list response) (last ack : response) (bs : list bytes)
    (rest : list reply) (w : world) :
  Forall (fun r => eof r = false) init ->
  eof last = true ->
  Forall2 (fun r b => if base64Encoded r then base64Decode (data r) = Return b
                      else b = TextEncoder_encode (data r)) (init ++ [last]) bs ->
  (forall p, given path = Some p -> p ∉ denied w) ->
  exists w',
    readProtocolStream base64Decode concatUint8Array handle path
      (map Result (init ++ [last]) ++ Result ack :: rest) w =
      (Resolved (match concatUint8Array bs with
                 | Return resultArr => Some resultArr
                 | Throw _ => None
                 end), rest, w') /\
    issued w' =
      issued w ++ repeat (mkCommand "IO.read" handle) (length (init ++ [last])) ++
      [mkCommand "IO.close" handle] /\
    count_occ command_eq_dec (drop (length (issued w)) (issued w'))
      (mkCommand "IO.close" handle) = 1%nat /\
    open_handles w' = open_handles w /\
    match given path with
    | None => files w' = files w
    | Some p =>
        let old := default [] (files w !! p) in
        (forall q, q <> p -> files w' !! q = files w !! q) /\
        (exists content,
            files w' !! p = Some content /\
            take (length (concat bs)) content = concat bs /\
            ((length old <= length (concat bs))%nat -> content = concat bs)) /\
        forall init1 init2,
          init = init1 ++ init2 ->
          let arrived := concat (take (length init1) bs) in
          exists w'' content,
            readProtocolStream base64Decode concatUint8Array handle path
              (map Result init1) w = (Hanging, [], w'') /\
            files w'' !! p = Some content /\
            take (length arrived) content = arrived /\
            ((length old <= length arrived)%nat -> content = arrived)
    end.
Proof.
  intros Heof Hlast Hdec Hallowed.
  apply flagged_chunks_decode in Hdec.
  assert (Hstart : forall old out : bytes,
             take (length out) (write_at old 0 out) = out /\
             ((length old <= length out)%nat -> write_at old 0 out = out)).
  { intros old out. rewrite write_at_start. split; [apply take_app_length |].
    intros Hlen. rewrite drop_ge by exact Hlen. apply app_nil_r. }
  destruct (given path) as [p|] eqn:Hpath.
  - specialize (Hallowed p eq_refl).
    eexists. split; [| split; [| split; [| split; [| split; [| split]]]]].
    + rewrite (readProtocolStream_tee base64Decode concatUint8Array handle path p init last
                 ack bs rest w Hpath Hallowed Heof Hlast Hdec).
      reflexivity.
    + reflexivity.
    + cbn [issued]. apply count_close_once.
    + reflexivity.
    + intros q Hq. cbn [files]. now apply lookup_insert_ne.
    + eexists. split; [cbn [files]; apply lookup_insert_eq |]. apply Hstart.
    + intros init1 init2 -> arrived.
      rewrite <- app_assoc in Hdec.
      apply Forall2_app_inv_l in Hdec as (bs1 & bs2 & Hbs1 & _ & ->).
      apply Forall_app in Heof as [Heof1 _].
      unfold arrived. rewrite (Forall2_length _ _ _ Hbs1), take_app_length.
      eexists. eexists. split.
      * apply (readProtocolStream_tee_interrupted base64Decode concatUint8Array handle
                 path p init1 bs1 w Hpath Hallowed Heof1 Hbs1).
      * split; [cbn [files]; apply lookup_insert_eq |]. apply Hstart.
  - eexists. split; [| split; [| split; [| split]]].
    + rewrite (readProtocolStream_plain base64Decode concatUint8Array handle path init last
                 ack bs rest w Hpath Heof Hlast Hdec).
      reflexivity.
    + reflexivity.
    + cbn [issued]. apply count_close_once.
    + reflexivity.
    + reflexivity.
Qed.

(** A stream of two chunks, the first flagged as base64 and the second
    plain text with the end-of-stream flag, read into a destination that
    does not exist yet. *)
Lemma readProtocolStream_reassembles_witness :
  let chunk1 := mkResponse "QQ==" true false in
  let chunk2 := mkResponse "B" false true in
  let ack := mkResponse "" false false in
  let w := mkWorld [] ∅ ∅ [] [] in
  exists w',
    readProtocolStream Base64.base64Decode concat_std "stream-1" (Some "out.bin")
      [Result chunk1; Result chunk2; Result ack] w =
      (Resolved (Some [Byte.x41; Byte.x42]), [], w') /\
    issued w' = [mkCommand "IO.read" "stream-1"; mkCommand "IO.read" "stream-1";
                 mkCommand "IO.close" "stream-1"] /\
    files w' !! "out.bin" = Some [Byte.x41; Byte.x42].
Proof.
  intros chunk1 chunk2 ack w.
  destruct (readProtocolStream_reassembles Base64.base64Decode concat_std "stream-1"
              (Some "out.bin") [chunk1] chunk2 ack [[Byte.x41]; [Byte.x42]] [] w)
    as (w' & Hrun & Hissued & _ & _ & _ & (content & Hfile & _ & Hexact) & _).
  - repeat constructor.
  - reflexivity.
  - repeat constructor.
  - intros p _. apply not_elem_of_empty.
  - exists w'. split; [exact Hrun | split; [exact Hissued |]].
    rewrite Hfile, Hexact; [reflexivity |]. vm_compute. lia.
Defined.

(** The stream of the specification's example, [QQ==] then [Qg==] with the
    end-of-stream flag, read into a destination that does not exist yet:
    the result is [AB], the destination holds [AB], and [IO.close] was
    issued once, after the two reads. *)
Example readProtocolStream_new_destination :
  let chunk1 := mkResponse "QQ==" true false in
  let chunk2 := mkResponse "Qg==" true true in
  let ack := mkResponse "" false false in
  let w := mkWorld [] ∅ ∅ [] [] in
  let run := readProtocolStream Base64.base64Decode concat_std "stream-1" (Some "out.bin")
               [Result chunk1; Result chunk2; Result ack] w in
  fst (fst run) = Resolved (Some [Byte.x41; Byte.x42]) /\
  files (snd run) !! "out.bin" = Some [Byte.x41; Byte.x42] /\
  issued (snd run) = [mkCommand "IO.read" "stream-1"; mkCommand "IO.read" "stream-1";
                      mkCommand "IO.close" "stream-1"].
Proof. vm_compute. repeat split. Qed.

(** C2: the stream of the specification's example read into a destination
    that already holds the three bytes [XYZ].  The result is [AB] and
    [IO.close] is issued once, but the file then holds [ABZ]: it is opened
    without being truncated and written from offset 0, so the chunks were
    neither appended to the file nor do they make up its contents. *)
Lemma readProtocolStream_existing_destination :
  let chunk1 := mkResponse "QQ==" true false in
  let chunk2 := mkResponse "Qg==" true true in
  let ack := mkResponse "" false false in
  let w := mkWorld [] {[ "out.bin" := [Byte.x58; Byte.x59; Byte.x5a] ]} ∅ [] [] in
  let run := readProtocolStream Base64.base64Decode concat_std "stream-1" (Some "out.bin")
               [Result chunk1; Result chunk2; Result ack] w in
  fst (fst run) = Resolved (Some [Byte.x41; Byte.x42]) /\
  issued (snd run) = [mkCommand "IO.read" "stream-1"; mkCommand "IO.read" "stream-1";
                      mkCommand "IO.close" "stream-1"] /\
  files (snd run) !! "out.bin" = Some [Byte.x41; Byte.x42; Byte.x5a] /\
  files (snd run) !! "out.bin" <> Some [Byte.x41; Byte.x42] /\
  files (snd run) !! "out.bin" <>
    Some ([Byte.x58; Byte.x59; Byte.x5a] ++ [Byte.x41; Byte.x42]).
Proof.
  intros chunk1 chunk2 ack w run.
  assert (Hfile : files (snd run) !! "out.bin" = Some [Byte.x41; Byte.x42; Byte.x5a])
    by (vm_compute; reflexivity).
  split; [vm_compute; reflexivity |].
  split; [vm_compute; reflexivity |].
  split; [exact Hfile |].
  rewrite Hfile. split; discriminate.
Qed.

(** C3, as the code has it: the close does not depend on the final
    concatenation, but it does depend on the loop.  Once the loop has run
    to the end-of-stream chunk and [IO.close] is answered, the call resolves
    with [IO.close] issued right after the reads, and a concatenation that
    throws only turns the result into [null].  When a chunk fails to decode,
    the call is rejected with the decoder's error, no [IO.close] is issued
    (the reply meant for it stays unconsumed) and an opened destination
    stays open. *)
Theorem readProtocolStream_close_after_loop_only
    (base64Decode : string -> completion bytes)
    (concatUint8Array : list bytes -> completion bytes)
    (handle : string) (path : option string)
    (init : list response) (last ack : response) (rest : list reply) (w : world) :
  Forall (fun r => eof r = false) init ->
  (forall p, given path = Some p -> p ∉ denied w) ->
  (forall bs,
      eof last = true ->
      Forall2 (fun r b => decode_chunk base64Decode r = Return b) (init ++ [last]) bs ->
      exists w',
        readProtocolStream base64Decode concatUint8Array handle path
          (map Result (init ++ [last]) ++ Result ack :: rest) w =
          (Resolved (match concatUint8Array bs with
                     | Return resultArr => Some resultArr
                     | Throw _ => None
                     end), rest, w') /\
        issued w' =
          issued w ++ repeat (mkCommand "IO.read" handle) (length (init ++ [last])) ++
          [mkCommand "IO.close" handle]) /\
  (forall bs e,
      Forall2 (fun r b => decode_chunk base64Decode r = Return b) init bs ->
      decode_chunk base64Decode last = Throw e ->
      exists w',
        readProtocolStream base64Decode concatUint8Array handle path
          (map Result (init ++ [last]) ++ Result ack :: rest) w =
          (Failed e, Result ack :: rest, w') /\
        issued w' = issued w ++ repeat (mkCommand "IO.read" handle) (length (init ++ [last])) /\
        count_occ command_eq_dec (issued w') (mkCommand "IO.close" handle) =
          count_occ command_eq_dec (issued w) (mkCommand "IO.close" handle) /\
        open_handles w' = match given path with
                          | Some p => p :: open_handles w
                          | None => open_handles w
                          end).
Proof.
  intros Heof Hallowed. split.
  - intros bs Hlast Hdec. destruct (given path) as [p|] eqn:Hpath.
    + eexists. split.
      * apply (readProtocolStream_tee base64Decode concatUint8Array handle path p init last
                 ack bs rest w Hpath (Hallowed p eq_refl) Heof Hlast Hdec).
      * reflexivity.
    + eexists. split.
      * apply (readProtocolStream_plain base64Decode concatUint8Array handle path init last
                 ack bs rest w Hpath Heof Hlast Hdec).
      * reflexivity.
  - intros bs e Hdec Hbad.
    destruct (readProtocolStream_decode_failure base64Decode concatUint8Array handle path
                init last bs e (Result ack :: rest) w Hallowed Heof Hdec Hbad)
      as (w' & Hrun & Hissued & Hopen).
    exists w'. split; [exact Hrun | split; [exact Hissued | split; [| exact Hopen]]].
    rewrite Hissued, count_occ_app, count_occ_repeat_neq by discriminate. lia.
Qed.

(** A concatenation that always throws, and a chunk that is not base64. *)
Lemma readProtocolStream_close_after_loop_only_witness :
  let failing := fun _ : list bytes => @Throw bytes (mkError TypeError "concat") in
  let good := mkResponse "QQ==" true true in
  let bad := mkResponse "!" true true in
  let ack := mkResponse "" false false in
  let w := mkWorld [] ∅ ∅ [] [] in
  (exists w',
      readProtocolStream Base64.base64Decode failing "stream-1" None
        [Result good; Result ack] w = (Resolved None, [], w') /\
      issued w' = [mkCommand "IO.read" "stream-1"; mkCommand "IO.close" "stream-1"]) /\
  (exists w',
      readProtocolStream Base64.base64Decode concat_std "stream-1" None
        [Result bad; Result ack] w = (Failed Base64.invalid, [Result ack], w') /\
      issued w' = [mkCommand "IO.read" "stream-1"]).
Proof.
  intros failing good bad ack w. split.
  - destruct (readProtocolStream_close_after_loop_only Base64.base64Decode failing
                "stream-1" None [] good ack [] w) as [Hclose _].
    + constructor.
    + intros p Hp. discriminate Hp.
    + destruct (Hclose [[Byte.x41]]) as (w' & Hrun & Hissued).
      * reflexivity.
      * repeat constructor.
      * exists w'. split; [exact Hrun | exact Hissued].
  - destruct (readProtocolStream_close_after_loop_only Base64.base64Decode concat_std
                "stream-1" None [] bad ack [] w) as [_ Hfail].
    + constructor.
    + intros p Hp. discriminate Hp.
    + destruct (Hfail [] Base64.invalid) as (w' & Hrun & Hissued & _).
      * constructor.
      * reflexivity.
      * exists w'. split; [exact Hrun | exact Hissued].
Defined.

(** C3, counterexample: one chunk flagged as base64 whose text is not
    base64, with a destination.  The call is rejected with the decoder's
    error; the only command issued is the [IO.read], and the destination is
    still open. *)
Lemma readProtocolStream_decode_failure_skips_close :
  let bad := mkResponse "!" true true in
  let ack := mkResponse "" false false in
  let w := mkWorld [] ∅ ∅ [] [] in
  let run := readProtocolStream Base64.base64Decode concat_std "stream-1" (Some "out.bin")
               [Result bad; Result ack] w in
  fst (fst run) = Failed Base64.invalid /\
  issued (snd run) = [mkCommand "IO.read" "stream-1"] /\
  count_occ command_eq_dec (issued (snd run)) (mkCommand "IO.close" "stream-1") = 0%nat /\
  open_handles (snd run) = ["out.bin"].
Proof.
  intros bad ack w run. repeat split; vm_compute; reflexivity.
Qed.

End StreamClaims.

(** ** Event waiter *)

Section EmitterFacts.

Lemma new_function_fresh (name : string) (em : emitter) :
  (name, new_function em) ∉ em.
Proof.
  intros Hin.
  assert (Hle : Forall (fun k => (k <= list_max (map snd em))%nat) (map snd em))
    by (apply list_max_le; lia).
  rewrite Forall_forall in Hle.
  assert (Hsnd : new_function em ∈ map snd em).
  { apply (list_elem_of_fmap_2 snd) in Hin. exact Hin. }
  specialize (Hle _ Hsnd). unfold new_function in Hle. lia.
Qed.

Lemma remove_first_fresh {A} `{EqDecision A} (x : A) (l : list A) :
  x ∉ l -> remove_first x (l ++ [x]) = l.
Proof.
  induction l as [|y l IH]; intros Hx; simpl.
  - now rewrite bool_decide_eq_true_2.
  - rewrite not_elem_of_cons in Hx. destruct Hx as [Hne Hx].
    rewrite bool_decide_eq_false_2 by congruence. now rewrite IH.
Qed.

(** Registering a new function and removing it again leaves the emitter
    as it was. *)
Lemma removeListener_on (name : string) (em : emitter) :
  removeListener name (new_function em) (on name (new_function em) em) = em.
Proof. apply remove_first_fresh, new_function_fresh. Qed.

Lemma registered_on (name name' : string) (em : emitter) :
  registered name' (new_function em) (on name (new_function em) em) =
    bool_decide (name' = name).
Proof.
  unfold registered, on. apply bool_decide_ext.
  rewrite elem_of_app, list_elem_of_singleton. split.
  - intros [Hin | Heq]; [| congruence].
    now apply new_function_fresh in Hin.
  - intros ->. now right.
Qed.

Lemma registered_before (name : string) (em : emitter) :
  registered name (new_function em) em = false.
Proof. apply bool_decide_eq_false_2, new_function_fresh. Qed.

End EmitterFacts.

Section WaitFacts.

Variable eventName : string.
Variable predicate : value -> bool.
Variable timeout : Z.
Variable em : emitter.

Local Abbreviation step_of := (wait_step predicate).
Local Abbreviation run := (wait_run predicate).
Local Abbreviation is_decided := (decided eventName em).
Local Abbreviation is_completed := (completed eventName em).
Local Abbreviation trigger := (first_trigger eventName predicate timeout).
Local Abbreviation waiting := (waitForEvent eventName timeout em Pending).

Lemma settle_settled (new s : pstate) : s <> Pending -> settle new s = s.
Proof. destruct s; [congruence | reflexivity | reflexivity]. Qed.

Lemma after_await_settled (s : pstate) : s <> Pending -> after_await s <> Pending.
Proof.
  destruct s as [|v|v]; simpl; [congruence | | discriminate].
  destruct (instanceof_Error v); discriminate.
Qed.

Lemma is_pending_settled (s : pstate) : s <> Pending -> is_pending s = false.
Proof. destruct s; [congruence | reflexivity | reflexivity]. Qed.

Lemma wait_run_cons (st : step) (tr : list step) (w : wait) :
  run w (st :: tr) = run (step_of st w) tr.
Proof. reflexivity. Qed.

Lemma wait_run_app (tr tr' : list step) (w : wait) :
  run w (tr ++ tr') = run (run w tr) tr'.
Proof. apply fold_left_app. Qed.

(** At a checkpoint a decided wait resumes: [cleanup] brings the emitter
    back and clears the timer. *)
Lemma checkpoint_decided (s : pstate) (w : wait) :
  is_decided s w -> is_completed s (checkpoint w).
Proof.
  intros (Hs & Hrace & Hres & Hh & Hem).
  unfold checkpoint. rewrite Hres, Hrace, (is_pending_settled s Hs).
  cbn [is_pending andb negb]. unfold completed, cleanup.
  cbn [w_race w_result w_listener w_emitter w_timer].
  rewrite Hrace, Hh, Hem. repeat split; try assumption.
  apply removeListener_on.
Qed.

Lemma checkpoint_completed (s : pstate) (w : wait) :
  is_completed s w -> checkpoint w = w.
Proof.
  intros (Hs & Hrace & Hres & _).
  unfold checkpoint. rewrite Hres, (is_pending_settled _ (after_await_settled s Hs)).
  reflexivity.
Qed.

(** Nothing reaches a completed wait any more. *)
Lemma step_completed (st : step) (s : pstate) (w : wait) :
  is_completed s w -> is_completed s (step_of st w).
Proof.
  intros Hdone. pose proof Hdone as (Hs & Hrace & Hres & Hh & Hem & Htimer).
  destruct st as [name event | | v | v | v | v |]; cbn [wait_step].
  - rewrite Hh, Hem. cbn [l_handler]. rewrite registered_before. exact Hdone.
  - rewrite (checkpoint_completed s w Hdone), Htimer. exact Hdone.
  - unfold settle_abort. destruct (is_pending (w_abort w)); [| exact Hdone].
    unfold completed. cbn [w_race w_result w_listener w_emitter w_timer].
    rewrite Hrace, (settle_settled _ s Hs). repeat split; congruence.
  - unfold settle_abort. destruct (is_pending (w_abort w)); [| exact Hdone].
    unfold completed. cbn [w_race w_result w_listener w_emitter w_timer].
    rewrite Hrace, (settle_settled _ s Hs). repeat split; congruence.
  - exact Hdone.
  - exact Hdone.
  - now rewrite (checkpoint_completed s w Hdone).
Qed.

(** A decided wait stays decided by the same settlement until it
    resumes. *)
Lemma step_decided (st : step) (s : pstate) (w : wait) :
  is_decided s w -> is_decided s (step_of st w) \/ is_completed s (step_of st w).
Proof.
  intros Hdec. pose proof Hdec as (Hs & Hrace & Hres & Hh & Hem).
  assert (Hkeep : forall p a t,
             is_decided s (mkWait (w_emitter w) (w_listener w) t p a
                                  (settle p (w_race w)) (w_result w)) /\
             is_decided s (mkWait (w_emitter w) (w_listener w) t p a
                                  (settle a (w_race w)) (w_result w))).
  { intros p a t. unfold decided. cbn [w_race w_result w_listener w_emitter].
    rewrite Hrace, !(settle_settled _ s Hs). repeat split; assumption. }
  destruct st as [name event | | v | v | v | v |]; cbn [wait_step].
  - left.
    destruct (registered name (l_handler (w_listener w)) (w_emitter w)); [| exact Hdec].
    unfold handler_body, resolveCallback.
    destruct (predicate event); cbn [negb]; [| exact Hdec].
    destruct (is_pending (w_promise w)); [| exact Hdec].
    apply (Hkeep (Fulfilled event) (w_abort w) (w_timer w)).
  - right. pose proof (checkpoint_decided s w Hdec) as Hdone.
    destruct Hdone as (_ & _ & _ & _ & _ & Htimer). rewrite Htimer.
    apply (checkpoint_decided s w Hdec).
  - left. unfold settle_abort. destruct (is_pending (w_abort w)); [| exact Hdec].
    apply (Hkeep (w_promise w) (Fulfilled v) (w_timer w)).
  - left. unfold settle_abort. destruct (is_pending (w_abort w)); [| exact Hdec].
    apply (Hkeep (w_promise w) (Rejected v) (w_timer w)).
  - left. exact Hdec.
  - left. exact Hdec.
  - right. apply (checkpoint_decided s w Hdec).
Qed.

Lemma run_completed (tr : list step) (s : pstate) (w : wait) :
  is_completed s w -> is_completed s (run w tr).
Proof.
  revert w. induction tr as [|st tr IH]; intros w Hdone; [exact Hdone |].
  rewrite wait_run_cons. apply IH, step_completed, Hdone.
Qed.

Lemma run_decided (tr : list step) (s : pstate) (w : wait) :
  is_decided s w \/ is_completed s w ->
  is_decided s (run w tr) \/ is_completed s (run w tr).
Proof.
  revert w. induction tr as [|st tr IH]; intros w H; [exact H |].
  rewrite wait_run_cons. apply IH. destruct H as [Hdec | Hdone].
  - apply step_decided, Hdec.
  - right. apply step_completed, Hdone.
Qed.

(** One step of a wait that nothing has decided yet. *)
Lemma step_waiting (st : step) :
  match trigger [st] with
  | None => step_of st waiting = waiting
  | Some (_, s) => is_decided s (step_of st waiting)
  end.
Proof.
  destruct st as [name event | | v | v | v | v |]; cbn [first_trigger wait_step].
  - unfold waitForEvent, addEventListener. cbn [w_listener w_emitter l_handler fst snd].
    rewrite registered_on.
    unfold handler_body.
    destruct (bool_decide (name = eventName)); cbn [andb]; [| reflexivity].
    destruct (predicate event); cbn [negb]; [| reflexivity].
    unfold decided. cbn. repeat split; discriminate.
  - unfold checkpoint, waitForEvent. cbn.
    destruct (truthy_number timeout); [| reflexivity].
    unfold decided. cbn. repeat split; discriminate.
  - unfold decided. cbn. repeat split; discriminate.
  - unfold decided. cbn. repeat split; discriminate.
  - reflexivity.
  - reflexivity.
  - reflexivity.
Qed.

Lemma trigger_cons (st : step) (tr : list step) :
  trigger (st :: tr) = match trigger [st] with
                       | Some t => Some t
                       | None => trigger tr
                       end.
Proof.
  destruct st as [name event | | v | v | v | v |]; cbn [first_trigger];
    try reflexivity.
  - destruct (bool_decide (name = eventName) && predicate event); reflexivity.
  - destruct (truthy_number timeout); reflexivity.
Qed.

Lemma run_waiting (tr : list step) :
  match trigger tr with
  | None => run waiting tr = waiting
  | Some (_, s) => is_decided s (run waiting tr) \/ is_completed s (run waiting tr)
  end.
Proof.
  induction tr as [|st tr IH]; [reflexivity |].
  rewrite trigger_cons, wait_run_cons. pose proof (step_waiting st) as Hst.
  destruct (trigger [st]) as [[c s]|].
  - apply run_decided. now left.
  - rewrite Hst. exact IH.
Qed.

(** The whole of a call: until something triggers, the wait is as the call
    left it; from the first trigger on it is decided by that trigger. *)
Lemma run_call (abortPromise : pstate) (tr : list step) :
  let w := run (waitForEvent eventName timeout em abortPromise) tr in
  match winner eventName predicate timeout abortPromise tr with
  | None => w = waiting
  | Some (_, s) => is_decided s w \/ is_completed s w
  end.
Proof.
  destruct abortPromise as [|v|v]; cbn [winner].
  - apply run_waiting.
  - apply run_decided. left. unfold decided. cbn. repeat split; discriminate.
  - apply run_decided. left. unfold decided. cbn. repeat split; discriminate.
Qed.

(** The same, seen after the next microtask checkpoint. *)
Lemma run_call_checkpoint (abortPromise : pstate) (tr : list step) :
  let w := run (waitForEvent eventName timeout em abortPromise) (tr ++ [Microtasks]) in
  match winner eventName predicate timeout abortPromise tr with
  | None => w = waiting
  | Some (_, s) => is_completed s w
  end.
Proof.
  cbn zeta. rewrite wait_run_app. pose proof (run_call abortPromise tr) as H.
  cbn zeta in H.
  destruct (winner eventName predicate timeout abortPromise tr) as [[c s]|].
  - cbn [wait_run fold_left wait_step]. destruct H as [Hdec | Hdone].
    + apply checkpoint_decided, Hdec.
    + now rewrite (checkpoint_completed s _ Hdone).
  - rewrite H. reflexivity.
Qed.

End WaitFacts.

Section GuardedFacts.

Variable taskName : string.
Variable timeout : Z.

Local Abbreviation gstep := (guarded_step taskName timeout).
Local Abbreviation grun := (guarded_run taskName timeout).
Local Abbreviation guarding := (waitWithTimeout timeout Pending).
Local Abbreviation is_timed_out := (timed_out taskName timeout).

Lemma guarded_run_cons (st : step) (tr : list step) (g : guarded) :
  grun g (st :: tr) = grun (gstep st g) tr.
Proof. reflexivity. Qed.

Lemma guarded_checkpoint_timed_out (g : guarded) :
  is_timed_out g ->
  is_timed_out (guarded_checkpoint g) /\
  g_result (guarded_checkpoint g) = Rejected (ErrorObject (timeoutError taskName timeout)) /\
  g_timer (guarded_checkpoint g) = None.
Proof.
  intros [Hrace [Hres | [Hres Htimer]]]; unfold guarded_checkpoint, timed_out.
  - rewrite Hres, Hrace. cbn. auto.
  - rewrite Hres, Hrace. cbn. rewrite Hres, Hrace, Htimer. auto.
Qed.

Lemma guarded_step_timed_out (st : step) (g : guarded) :
  is_timed_out g -> is_timed_out (gstep st g).
Proof.
  intros Hg. pose proof Hg as [Hrace Hres].
  destruct st as [name event | | v | v | v | v |]; cbn [guarded_step];
    try exact Hg.
  - destruct (guarded_checkpoint_timed_out g Hg) as (Hg' & _ & Htimer).
    now rewrite Htimer.
  - unfold settle_work. destruct (is_pending (g_promise g)); [| exact Hg].
    unfold timed_out. cbn [g_race g_result g_timer]. rewrite Hrace. cbn [settle].
    now rewrite <- Hrace.
  - unfold settle_work. destruct (is_pending (g_promise g)); [| exact Hg].
    unfold timed_out. cbn [g_race g_result g_timer]. rewrite Hrace. cbn [settle].
    now rewrite <- Hrace.
  - apply (guarded_checkpoint_timed_out g Hg).
Qed.

Lemma guarded_run_timed_out (tr : list step) (g : guarded) :
  is_timed_out g -> is_timed_out (grun g tr).
Proof.
  revert g. induction tr as [|st tr IH]; intros g Hg; [exact Hg |].
  rewrite guarded_run_cons. apply IH, guarded_step_timed_out, Hg.
Qed.

(** When the timer is the first to fire, it decides the race. *)
Lemma guarded_run_timer_first (tr : list step) :
  timer_first timeout tr = true -> is_timed_out (grun guarding tr).
Proof.
  induction tr as [|st tr IH]; cbn [timer_first]; [discriminate |].
  rewrite guarded_run_cons.
  destruct st as [name event | | v | v | v | v |]; try discriminate;
    try (intros H; exact (IH H)).
  unfold waitWithTimeout. cbn [guarded_step guarded_checkpoint g_result g_race g_timer
                                is_pending race_start andb negb].
  destruct (truthy_number timeout) eqn:Htruthy; cbn [orb].
  - intros _. apply guarded_run_timed_out. unfold timed_out. cbn. auto.
  - intros H. specialize (IH H). unfold waitWithTimeout in IH.
    now rewrite Htruthy in IH.
Qed.

End GuardedFacts.

Section WaitClaims.

(** A wait for a [request] event with a 30 s timeout on an emitter that
    already has two listeners, in four futures. *)
Example wait_ends_by_matching_event :
  let others := [("request", 1%nat); ("close", 2%nat)] in
  let wanted := fun v => match v with Val (JStr "GET /") => true | _ => false end in
  wait_run wanted (waitForEvent "request" 30000 others Pending)
    [Emit "request" (Val (JStr "POST /")); Emit "response" (Val (JStr "GET /"));
     Emit "request" (Val (JStr "GET /")); Microtasks; TimerFires] =
  mkWait others (mkListener "request" 3) None
         (Fulfilled (Val (JStr "GET /"))) Pending
         (Fulfilled (Val (JStr "GET /"))) (Fulfilled (Val (JStr "GET /"))).
Proof. reflexivity. Qed.

Example wait_ends_by_timer :
  let others := [("request", 1%nat); ("close", 2%nat)] in
  w_result (wait_run (fun _ => false) (waitForEvent "request" 30000 others Pending)
              [Emit "request" (Val JNull); TimerFires; Microtasks]) =
  Rejected (ErrorObject (mkError TimeoutError "Timeout exceeded while waiting for event")).
Proof. reflexivity. Qed.

Example wait_ends_by_abort :
  let others := [("request", 1%nat); ("close", 2%nat)] in
  let closed := ErrorObject (mkError PlainError "Target closed") in
  wait_run (fun _ => true) (waitForEvent "request" 30000 others Pending)
    [AbortRejected closed; Emit "request" (Val JNull); Microtasks; TimerFires] =
  mkWait others (mkListener "request" 3) None
         (Fulfilled (Val JNull)) (Rejected closed) (Rejected closed) (Rejected closed).
Proof. reflexivity. Qed.

Example wait_without_timeout_stays_pending :
  let others := [("request", 1%nat); ("close", 2%nat)] in
  wait_run (fun _ => false) (waitForEvent "request" 0 others Pending)
    [Emit "request" (Val JNull); TimerFires; Microtasks] =
  mkWait (others ++ [("request", 3%nat)]) (mkListener "request" 3) None
         Pending Pending Pending Pending.
Proof. reflexivity. Qed.

Lemma trigger_timed_out (eventName : string) (predicate : value -> bool) (timeout : Z)
    (abortPromise : pstate) (tr : list step) (s : pstate) :
  winner eventName predicate timeout abortPromise tr = Some (TimedOut, s) ->
  s = Rejected (ErrorObject (mkError TimeoutError timeout_message_waitForEvent)).
Proof.
  destruct abortPromise; cbn [winner]; try discriminate.
  induction tr as [|st tr IH]; cbn [first_trigger]; [discriminate |].
  destruct st as [name event | | v | v | v | v |]; try discriminate; try exact IH.
  - destruct (bool_decide (name = eventName) && predicate event);
      [discriminate | exact IH].
  - destruct (truthy_number timeout); [| exact IH]. intros H. now injection H.
Qed.

(** C1: a call of [waitForEvent] on an emitter holding [em] ends by
    exactly the first of the three triggers in what follows (matching
    event, timer, abort), or is still pending when there is none.  Once it
    has ended, the emitter holds [em] again, no timer is pending, and
    nothing that happens later (further events, the timer task, the abort
    promise) changes the outcome, the emitter or the timer. *)
Theorem waitForEvent_one_outcome_and_cleanup
    (eventName : string) (predicate : value -> bool) (timeout : Z)
    (em : emitter) (abortPromise : pstate) (tr : list step) :
  let w := wait_run predicate
             (waitForEvent eventName timeout em abortPromise) (tr ++ [Microtasks]) in
  match winner eventName predicate timeout abortPromise tr with
  | None =>
      w_result w = Pending /\
      w_emitter w = on eventName (l_handler (w_listener w)) em
  | Some (_, s) =>
      w_result w = after_await s /\ w_result w <> Pending /\
      w_emitter w = em /\ w_timer w = None /\
      forall later,
        let w' := wait_run predicate w later in
        w_result w' = w_result w /\ w_emitter w' = em /\ w_timer w' = None
  end.
Proof.
  pose proof (run_call_checkpoint eventName predicate timeout em abortPromise tr) as H.
  cbn zeta in *.
  destruct (winner eventName predicate timeout abortPromise tr) as [[c s]|].
  - pose proof H as (Hs & _ & Hres & _ & Hem & Htimer).
    split; [exact Hres |]. split; [rewrite Hres; now apply after_await_settled |].
    split; [exact Hem |]. split; [exact Htimer |].
    intros later.
    pose proof (run_completed eventName predicate em later s _ H)
      as (_ & _ & Hres' & _ & Hem' & Htimer').
    rewrite Hres, Hres'. auto.
  - rewrite H. split; reflexivity.
Qed.

(** C10: when the value that wins the race is an [Error] instance that
    fulfils it (a matching event that is an [Error], or an abort promise
    resolved with an [Error]), the call is rejected with that very value,
    after the listener and the timer are gone. *)
Theorem waitForEvent_throws_winning_error
    (eventName : string) (predicate : value -> bool) (timeout : Z)
    (em : emitter) (abortPromise : pstate) (tr : list step) (c : cause) (v : value) :
  instanceof_Error v = true ->
  winner eventName predicate timeout abortPromise tr = Some (c, Fulfilled v) ->
  let w := wait_run predicate
             (waitForEvent eventName timeout em abortPromise) (tr ++ [Microtasks]) in
  w_result w = Rejected v /\ w_emitter w = em /\ w_timer w = None.
Proof.
  intros Herr Hwin.
  pose proof (run_call_checkpoint eventName predicate timeout em abortPromise tr) as H.
  cbn zeta in *. rewrite Hwin in H.
  destruct H as (_ & _ & Hres & _ & Hem & Htimer).
  cbn [after_await] in Hres. rewrite Herr in Hres. auto.
Qed.

(** A matching event that is an [Error], and an abort promise resolved
    with an [Error] while a timer is pending. *)
Lemma waitForEvent_throws_winning_error_witness :
  let crash := ErrorObject (mkError PlainError "Page crashed!") in
  let closed := ErrorObject (mkError PlainError "Target closed") in
  let others := [("request", 1%nat); ("close", 2%nat)] in
  (let w := wait_run (fun _ => true)
              (waitForEvent "error" 0 others Pending)
              ([Emit "request" (Val JNull); Emit "error" crash] ++ [Microtasks]) in
   w_result w = Rejected crash /\ w_emitter w = others /\ w_timer w = None) /\
  (let w := wait_run (fun _ => true)
              (waitForEvent "request" 30000 others Pending)
              ([AbortResolved closed; Emit "request" (Val JNull)] ++ [Microtasks]) in
   w_result w = Rejected closed /\ w_emitter w = others /\ w_timer w = None).
Proof.
  intros crash closed others. split.
  - apply (waitForEvent_throws_winning_error "error" (fun _ => true) 0 others Pending
             [Emit "request" (Val JNull); Emit "error" crash] MatchingEvent crash);
      reflexivity.
  - apply (waitForEvent_throws_winning_error "request" (fun _ => true) 30000 others Pending
             [AbortResolved closed; Emit "request" (Val JNull)] Aborted closed);
      reflexivity.
Defined.

(** C4, as the code has it: a wait that ends by its timer is rejected with
    a [TimeoutError].  For [waitForEvent] the message is the fixed text
    "Timeout exceeded while waiting for event", whatever the event name; for
    [waitWithTimeout] it is "waiting for <taskName> failed: timeout
    <timeout>ms exceeded". *)
Theorem timeout_error_messages :
  (forall (eventName : string) (predicate : value -> bool) (timeout : Z)
          (em : emitter) (abortPromise : pstate) (tr : list step) (s : pstate),
      winner eventName predicate timeout abortPromise tr = Some (TimedOut, s) ->
      w_result (wait_run predicate
                  (waitForEvent eventName timeout em abortPromise) (tr ++ [Microtasks])) =
        Rejected (ErrorObject
                    (mkError TimeoutError "Timeout exceeded while waiting for event"))) /\
  (forall (taskName : string) (timeout : Z) (tr : list step),
      timer_first timeout tr = true ->
      g_result (guarded_run taskName timeout
                  (waitWithTimeout timeout Pending) (tr ++ [Microtasks])) =
        Rejected (ErrorObject
                    (mkError TimeoutError
                       ("waiting for " ++ taskName ++ " failed: timeout " ++
                        Number_toString timeout ++ "ms exceeded")))).
Proof.
  split.
  - intros eventName predicate timeout em abortPromise tr s Hwin.
    pose proof (run_call_checkpoint eventName predicate timeout em abortPromise tr) as H.
    cbn zeta in H. rewrite Hwin in H. destruct H as (_ & _ & Hres & _).
    rewrite Hres, (trigger_timed_out _ _ _ _ _ _ Hwin). reflexivity.
  - intros taskName timeout tr Hfirst.
    unfold guarded_run. rewrite fold_left_app. cbn [fold_left guarded_step].
    apply (guarded_checkpoint_timed_out taskName timeout).
    apply guarded_run_timer_first, Hfirst.
Qed.

Lemma timeout_error_messages_witness :
  w_result (wait_run (fun _ => false)
              (waitForEvent "request" 30000 [] Pending)
              ([Emit "request" (Val JNull); TimerFires] ++ [Microtasks])) =
    Rejected (ErrorObject (mkError TimeoutError "Timeout exceeded while waiting for event")) /\
  g_result (guarded_run "selector `.item`" 30000
              (waitWithTimeout 30000 Pending)
              ([Microtasks; TimerFires; WorkResolved (Val JNull)] ++ [Microtasks])) =
    Rejected (ErrorObject
                (mkError TimeoutError
                   "waiting for selector `.item` failed: timeout 30000ms exceeded")).
Proof.
  split.
  - apply (proj1 timeout_error_messages "request" (fun _ => false) 30000 [] Pending
             [Emit "request" (Val JNull); TimerFires]
             (Rejected (ErrorObject (mkError TimeoutError timeout_message_waitForEvent)))).
    reflexivity.
  - apply (proj2 timeout_error_messages "selector `.item`" 30000
             [Microtasks; TimerFires; WorkResolved (Val JNull)]).
    reflexivity.
Defined.

(** C4, counterexample: two waits on different events, both ended by their
    timers, are rejected with the same message, and that message contains
    neither event name. *)
Lemma waitForEvent_timeout_message_omits_event :
  let outcome := fun eventName =>
    w_result (wait_run (fun _ => false)
                (waitForEvent eventName 30000 [] Pending) [TimerFires; Microtasks]) in
  let message := "Timeout exceeded while waiting for event" in
  outcome "request" = Rejected (ErrorObject (mkError TimeoutError message)) /\
  outcome "framenavigated" = Rejected (ErrorObject (mkError TimeoutError message)) /\
  is_substring "request" message = false /\
  is_substring "framenavigated" message = false.
Proof. repeat split. Qed.

End WaitClaims.

(** ** Exception messages *)

Section ExceptionFacts.

Import Exceptions.

Lemma append_assoc_string (a b c : string) : ((a ++ b) ++ c = a ++ (b ++ c))%string.
Proof.
  induction a as [|x a IH]; [reflexivity |].
  change (String x ((a ++ b) ++ c) = String x (a ++ (b ++ c))). now rewrite IH.
Qed.

Lemma append_nil_r_string (a : string) : (a ++ "")%string = a.
Proof.
  induction a as [|x a IH]; [reflexivity |].
  change (String x (a ++ "") = String x a). now rewrite IH.
Qed.

Lemma add_callframe_line (message : string) (callframe : callFrame) :
  add_callframe message callframe = (message ++ frame_line callframe)%string.
Proof. reflexivity. Qed.

Lemma fold_add_callframe (callFrames : list callFrame) (message : string) :
  fold_left add_callframe callFrames message =
    (message ++ String.concat "" (map frame_line callFrames))%string.
Proof.
  revert message. induction callFrames as [|f fs IH]; intros message.
  - simpl. now rewrite append_nil_r_string.
  - cbn [fold_left map]. rewrite IH, add_callframe_line, append_assoc_string.
    f_equal. destruct fs as [|g fs]; [cbn; now rewrite append_nil_r_string |].
    reflexivity.
Qed.

Lemma prefix_append (a b : string) : String.prefix a (a ++ b) = true.
Proof.
  induction a as [|x a IH]; [now destruct b |].
  change (String.prefix (String x a) (String x (a ++ b)) = true).
  cbn [String.prefix]. destruct (ascii_dec x x); [exact IH | congruence].
Qed.

(** The line of one frame, written out: a line break, four spaces, [at],
    the function name or [<anonymous>], and the location in brackets. *)
Lemma frame_line_format (callframe : callFrame) :
  frame_line callframe =
    String "010"%char "    at " ++
    match functionName callframe with
    | EmptyString => "<anonymous>"
    | name => name
    end ++
    " (" ++ url callframe ++ ":" ++ Number_toString (lineNumber callframe) ++ ":" ++
    Number_toString (columnNumber callframe) ++ ")".
Proof.
  unfold frame_line, add_callframe, newline.
  rewrite !append_assoc_string.
  destruct (functionName callframe); reflexivity.
Qed.

(** X1: without an [exception] object, the message is the text followed by
    one line per call frame, in order.  The line of a frame is a line break,
    four spaces, [at], the function name ([<anonymous>] when the name is
    empty), and in brackets the url, the line number and the column number
    separated by colons.  So the text is a prefix of the message, the frames
    of two stack traces put together give the message of the first followed
    by the lines of the second, and without a stack trace the message is the
    text alone. *)
Theorem getExceptionMessage_stack_lines (text : string) (frames more : list callFrame) :
  let line := fun callframe : callFrame =>
    String "010"%char "    at " ++
    match functionName callframe with
    | EmptyString => "<anonymous>"
    | name => name
    end ++
    " (" ++ url callframe ++ ":" ++ Number_toString (lineNumber callframe) ++ ":" ++
    Number_toString (columnNumber callframe) ++ ")" in
  getExceptionMessage (mkDetails None text (Some frames)) =
    JStr (text ++ String.concat "" (map line frames)) /\
  (exists message,
      getExceptionMessage (mkDetails None text (Some frames)) = JStr message /\
      String.prefix text message = true /\
      getExceptionMessage (mkDetails None text (Some (frames ++ more)%list)) =
        JStr (message ++ String.concat "" (map line more))) /\
  getExceptionMessage (mkDetails None text None) = JStr text /\
  forall u l c,
    getExceptionMessage (mkDetails None text (Some [mkCallFrame "" u l c])) =
    JStr (text ++ String "010"%char "    at <anonymous> (" ++ u ++ ":" ++
          Number_toString l ++ ":" ++ Number_toString c ++ ")").
Proof.
  intros line.
  assert (Hline : forall fs, map line fs = map frame_line fs).
  { intros fs. apply map_ext. intros f. symmetry. apply frame_line_format. }
  split; [| split; [| split]].
  - cbn. now rewrite fold_add_callframe, Hline.
  - eexists. split; [cbn; rewrite fold_add_callframe; reflexivity |].
    split; [apply prefix_append |].
    cbn. rewrite fold_left_app, !fold_add_callframe, Hline.
    reflexivity.
  - reflexivity.
  - intros u l c.
    change (JStr (add_callframe text (mkCallFrame "" u l c)) =
            JStr (text ++ line (mkCallFrame "" u l c))).
    now rewrite add_callframe_line, frame_line_format.
Qed.

Example getExceptionMessage_two_frames :
  getExceptionMessage
    (mkDetails None "Uncaught"
       (Some [mkCallFrame "run" "app.js" 10 4; mkCallFrame "" "app.js" 1 0])) =
  JStr "Uncaught
    at run (app.js:10:4)
    at <anonymous> (app.js:1:0)".
Proof. reflexivity. Qed.

End ExceptionFacts.

(** ** Values of remote objects *)

Section RemoteValueFacts.

Import RemoteValues.

Variable has_BigInt : bool.
Variable BigInt : string -> completion Z.

Local Abbreviation extract := (valueFromRemoteObject has_BigInt BigInt).

(** X2: [valueFromRemoteObject] throws in exactly three cases: an
    [objectId] is given; the unserializable value is read as a bigint and
    [BigInt] throws on it; or it is not read as a bigint and is none of
    [-0], [NaN], [Infinity], [-Infinity].  An empty unserializable value
    counts as absent, and then the plain value is returned. *)
Theorem valueFromRemoteObject_throws_iff (o : remote) :
  ((exists e, extract o = Throw e) <->
   (Protocol.given (r_objectId o) <> None \/
    exists u,
      Protocol.given (r_objectId o) = None /\
      Protocol.given (r_unserializableValue o) = Some u /\
      if bool_decide (r_type o = "bigint") && has_BigInt
      then exists e, BigInt (drop_first_n u) = Throw e
      else u ∉ known_tokens)) /\
  (Protocol.given (r_objectId o) = None ->
   Protocol.given (r_unserializableValue o) = None ->
   extract o = Return (Plain (r_value o))).
Proof.
  unfold valueFromRemoteObject, known_tokens.
  destruct (Protocol.given (r_objectId o)) as [id|] eqn:Hid; cbn [negb assert cbind].
  { split; [| discriminate]. split; [intros _; now left | intros _; eexists; reflexivity]. }
  destruct (Protocol.given (r_unserializableValue o)) as [u|] eqn:Hu.
  2:{ split; [| reflexivity]. split.
      - intros [e He]. discriminate.
      - intros [H | (u & _ & Hu' & _)]; congruence. }
  split; [| discriminate].
  destruct (bool_decide (r_type o = "bigint") && has_BigInt) eqn:Hbig.
  - split.
    + intros [e He]. right. exists u. repeat split.
      destruct (BigInt (drop_first_n u)) as [n | e']; [cbn in He; discriminate | now exists e'].
    + intros [H | (u' & _ & Hu' & [e He])]; [congruence |].
      injection Hu' as <-. rewrite He. cbn. now exists e.
  - split.
    + intros [e He]. right. exists u. repeat split.
      intros Hin. rewrite !elem_of_cons, elem_of_nil in Hin.
      destruct Hin as [-> | [-> | [-> | [-> | []]]]]; vm_compute in He; discriminate.
    + intros [H | (u' & _ & Hu' & Hnot)]; [congruence |].
      injection Hu' as <-.
      rewrite !not_elem_of_cons in Hnot. destruct Hnot as (H1 & H2 & H3 & H4 & _).
      rewrite !bool_decide_eq_false_2 by assumption. eexists; reflexivity.
Qed.

End RemoteValueFacts.

Section RemoteValueExamples.

Import RemoteValues.

Lemma valueFromRemoteObject_throws_iff_witness :
  valueFromRemoteObject true (fun _ => Return 0) (mkRemote None "number" (Some "") (JNum 7)) =
    Return (Plain (JNum 7)).
Proof.
  apply (proj2 (valueFromRemoteObject_throws_iff true (fun _ => Return 0)
                  (mkRemote None "number" (Some "") (JNum 7)))); reflexivity.
Defined.

Example valueFromRemoteObject_tokens :
  let extract := valueFromRemoteObject true (fun _ => Return 0) in
  extract (mkRemote None "number" (Some "-0") JUndefined) = Return NegativeZero /\
  extract (mkRemote None "number" (Some "-Infinity") JUndefined) = Return NegativeInfinity /\
  extract (mkRemote None "number" (Some "1e999") JUndefined) =
    Throw (mkError PlainError "Unsupported unserializable value: 1e999") /\
  extract (mkRemote (Some "obj-1") "object" None JUndefined) =
    Throw (mkError ArgumentError "Cannot extract value when objectId is given") /\
  drop_first_n "12n" = "12".
Proof. repeat split. Qed.

End RemoteValueExamples.

(** ** Waiting for a node to be visible or hidden *)

Section VisibilityFacts.

Import Visibility.

Variable number : Type.
Variable truthy : number -> bool.

Local Abbreviation check := (checkWaitForOptions number truthy).
Local Abbreviation is_visible := (visible number truthy).

(** X3: what [checkWaitForOptions] answers.  Without a node it answers the
    flag [waitForHidden].  With a node and neither flag it answers the node
    without looking at it.  Otherwise it looks at the element (a text node's
    parent; a text node without parent makes it throw) and answers the node
    when the two flags agree or [waitForVisible] equals the element's
    visibility, and [null] otherwise; the element is visible when it has a
    computed style whose visibility is not [hidden] and one of top, bottom,
    width, height of its bounding box is non-zero. *)
Theorem checkWaitForOptions_answers (nd : node number) (waitForVisible waitForHidden : bool) :
  check None waitForVisible waitForHidden = Return (Flag number waitForHidden) /\
  check (Some nd) false false = Return (TheNode number nd) /\
  match nd with
  | TextNode _ None =>
      waitForVisible || waitForHidden = true ->
      exists e, check (Some nd) waitForVisible waitForHidden = Throw e
  | TextNode _ (Some e) | ElementNode _ e =>
      check (Some nd) waitForVisible waitForHidden =
        Return (if Bool.eqb waitForVisible waitForHidden ||
                   Bool.eqb waitForVisible (is_visible e)
                then TheNode number nd else Null number) /\
      is_visible e =
        match computed_visibility number e with
        | Some visibility =>
            negb (bool_decide (visibility = "hidden")) &&
            (truthy (top number (boundingClientRect number e)) ||
             truthy (bottom number (boundingClientRect number e)) ||
             truthy (width number (boundingClientRect number e)) ||
             truthy (height number (boundingClientRect number e)))
        | None => false
        end
  end.
Proof.
  split; [reflexivity | split; [reflexivity |]].
  destruct nd as [e | [e|]].
  - split.
    + unfold checkWaitForOptions, visible.
      destruct waitForVisible, waitForHidden, (isVisible number truthy e) as [[|]|];
        reflexivity.
    + unfold visible, isVisible. now destruct (computed_visibility number e).
  - split.
    + unfold checkWaitForOptions, visible.
      destruct waitForVisible, waitForHidden, (isVisible number truthy e) as [[|]|];
        reflexivity.
    + unfold visible, isVisible. now destruct (computed_visibility number e).
  - intros Hflag. unfold checkWaitForOptions.
    destruct waitForVisible, waitForHidden; try discriminate; cbn; eauto.
Qed.

End VisibilityFacts.

Section VisibilityExamples.

Import Visibility.

(** A text node without parent, and a hidden element with a box. *)
Lemma checkWaitForOptions_answers_witness :
  let hidden := mkElement Z (Some "hidden") (mkRect Z 0 10 100 10) in
  (exists e, checkWaitForOptions Z truthy_number (Some (TextNode Z None)) true false = Throw e) /\
  checkWaitForOptions Z truthy_number (Some (ElementNode Z hidden)) true false =
    Return (Null Z) /\
  checkWaitForOptions Z truthy_number (Some (ElementNode Z hidden)) false true =
    Return (TheNode Z (ElementNode Z hidden)) /\
  checkWaitForOptions Z truthy_number (Some (ElementNode Z hidden)) true true =
    Return (TheNode Z (ElementNode Z hidden)).
Proof.
  intros hidden. split; [| split; [| split]].
  - apply (proj2 (proj2 (checkWaitForOptions_answers Z truthy_number (TextNode Z None)
                           true false))).
    reflexivity.
  - apply (proj1 (proj2 (proj2 (checkWaitForOptions_answers Z truthy_number
                                  (ElementNode Z hidden) true false)))).
  - apply (proj1 (proj2 (proj2 (checkWaitForOptions_answers Z truthy_number
                                  (ElementNode Z hidden) false true)))).
  - apply (proj1 (proj2 (proj2 (checkWaitForOptions_answers Z truthy_number
                                  (ElementNode Z hidden) true true)))).
Defined.

End VisibilityExamples.

(** ** The race of [waitWithTimeout] *)

Section GuardedRaceFacts.

Variable taskName : string.
Variable timeout : Z.

Local Abbreviation gstep := (guarded_step taskName timeout).
Local Abbreviation grun := (guarded_run taskName timeout).
Local Abbreviation settlement_of := (first_settlement taskName timeout).

Lemma guard_checkpoint_decided (s : pstate) (g : guarded) :
  guard_decided s g -> guard_completed s (guarded_checkpoint g).
Proof.
  intros (Hs & Hrace & Hres). unfold guarded_checkpoint.
  rewrite Hres, Hrace, (is_pending_settled s Hs). cbn. repeat split; assumption.
Qed.

Lemma guard_checkpoint_completed (s : pstate) (g : guarded) :
  guard_completed s g -> guarded_checkpoint g = g.
Proof.
  intros (Hs & Hrace & Hres & Htimer). unfold guarded_checkpoint.
  now rewrite Hres, (is_pending_settled s Hs).
Qed.

Lemma guard_step_completed (st : step) (s : pstate) (g : guarded) :
  guard_completed s g -> guard_completed s (gstep st g).
Proof.
  intros Hdone. pose proof Hdone as (Hs & Hrace & Hres & Htimer).
  destruct st as [name event | | v | v | v | v |]; cbn [guarded_step];
    try exact Hdone.
  - now rewrite (guard_checkpoint_completed s g Hdone), Htimer.
  - unfold settle_work. destruct (is_pending (g_promise g)); [| exact Hdone].
    unfold guard_completed. cbn [g_race g_result g_timer].
    rewrite Hrace, (settle_settled _ s Hs). repeat split; congruence.
  - unfold settle_work. destruct (is_pending (g_promise g)); [| exact Hdone].
    unfold guard_completed. cbn [g_race g_result g_timer].
    rewrite Hrace, (settle_settled _ s Hs). repeat split; congruence.
  - now rewrite (guard_checkpoint_completed s g Hdone).
Qed.

Lemma guard_step_decided (st : step) (s : pstate) (g : guarded) :
  guard_decided s g -> guard_decided s (gstep st g) \/ guard_completed s (gstep st g).
Proof.
  intros Hdec. pose proof Hdec as (Hs & Hrace & Hres).
  destruct st as [name event | | v | v | v | v |]; cbn [guarded_step];
    try (left; exact Hdec).
  - right. pose proof (guard_checkpoint_decided s g Hdec) as Hdone.
    destruct Hdone as (_ & _ & _ & Htimer). rewrite Htimer.
    apply (guard_checkpoint_decided s g Hdec).
  - left. unfold settle_work. destruct (is_pending (g_promise g)); [| exact Hdec].
    unfold guard_decided. cbn [g_race g_result].
    rewrite Hrace, (settle_settled _ s Hs). repeat split; assumption.
  - left. unfold settle_work. destruct (is_pending (g_promise g)); [| exact Hdec].
    unfold guard_decided. cbn [g_race g_result].
    rewrite Hrace, (settle_settled _ s Hs). repeat split; assumption.
  - right. apply (guard_checkpoint_decided s g Hdec).
Qed.

Lemma guard_run_completed (tr : list step) (s : pstate) (g : guarded) :
  guard_completed s g -> guard_completed s (grun g tr).
Proof.
  revert g. induction tr as [|st tr IH]; intros g Hdone; [exact Hdone |].
  rewrite guarded_run_cons. apply IH, guard_step_completed, Hdone.
Qed.

Lemma guard_run_decided (tr : list step) (s : pstate) (g : guarded) :
  guard_decided s g \/ guard_completed s g ->
  guard_decided s (grun g tr) \/ guard_completed s (grun g tr).
Proof.
  revert g. induction tr as [|st tr IH]; intros g H; [exact H |].
  rewrite guarded_run_cons. apply IH. destruct H as [Hdec | Hdone].
  - apply guard_step_decided, Hdec.
  - right. apply guard_step_completed, Hdone.
Qed.

Lemma guarded_run_snoc (tr : list step) (g : guarded) :
  grun g (tr ++ [Microtasks]) = guarded_checkpoint (grun g tr).
Proof. unfold guarded_run. now rewrite fold_left_app. Qed.

Lemma guard_run_waiting (tr : list step) :
  match settlement_of tr with
  | None => grun (waitWithTimeout timeout Pending) tr = waitWithTimeout timeout Pending
  | Some s =>
      guard_decided s (grun (waitWithTimeout timeout Pending) tr) \/
      guard_completed s (grun (waitWithTimeout timeout Pending) tr)
  end.
Proof.
  induction tr as [|st tr IH]; [reflexivity |].
  rewrite guarded_run_cons.
  destruct st as [name event | | v | v | v | v |]; cbn [first_settlement];
    try exact IH.
  - unfold waitWithTimeout in *.
    cbn [guarded_step guarded_checkpoint g_result g_race g_timer is_pending
           race_start andb negb].
    destruct (truthy_number timeout) eqn:Htruthy.
    + apply guard_run_decided. left. unfold guard_decided. cbn.
      repeat split; discriminate.
    + exact IH.
  - apply guard_run_decided. left. unfold guard_decided. cbn.
    repeat split; discriminate.
  - apply guard_run_decided. left. unfold guard_decided. cbn.
    repeat split; discriminate.
Qed.

(** X4: a call of [waitWithTimeout] settles like the first of the wrapped
    promise and the timer to settle (a promise that had settled before the
    call wins at once), and is pending while neither has.  Once it has
    settled the timer is cleared, and nothing that happens later, the timer
    task included, changes the outcome. *)
Theorem waitWithTimeout_settles_like_first (promise : pstate) (tr : list step) :
  let g := grun (waitWithTimeout timeout promise) (tr ++ [Microtasks]) in
  match guarded_winner taskName timeout promise tr with
  | None => g_result g = Pending
  | Some s =>
      g_result g = s /\ s <> Pending /\ g_timer g = None /\
      forall later, g_result (grun g later) = s /\ g_timer (grun g later) = None
  end.
Proof.
  cbn zeta. rewrite guarded_run_snoc.
  assert (H : match guarded_winner taskName timeout promise tr with
              | None => grun (waitWithTimeout timeout promise) tr =
                        waitWithTimeout timeout Pending
              | Some s =>
                  guard_decided s (grun (waitWithTimeout timeout promise) tr) \/
                  guard_completed s (grun (waitWithTimeout timeout promise) tr)
              end).
  { destruct promise as [|v|v]; cbn [guarded_winner].
    - apply guard_run_waiting.
    - apply guard_run_decided. left. unfold guard_decided. cbn.
      repeat split; discriminate.
    - apply guard_run_decided. left. unfold guard_decided. cbn.
      repeat split; discriminate. }
  destruct (guarded_winner taskName timeout promise tr) as [s|].
  - assert (Hdone : guard_completed s
                      (guarded_checkpoint (grun (waitWithTimeout timeout promise) tr))).
    { destruct H as [Hdec | Hdone].
      - apply guard_checkpoint_decided, Hdec.
      - now rewrite (guard_checkpoint_completed s _ Hdone). }
    pose proof Hdone as (Hs & _ & Hres & Htimer).
    split; [exact Hres |]. split; [exact Hs |]. split; [exact Htimer |].
    intros later.
    pose proof (guard_run_completed later s _ Hdone) as (_ & _ & Hres' & Htimer').
    split; assumption.
  - rewrite H. reflexivity.
Qed.

(** X5: with a falsy timeout [waitWithTimeout] never arms a timer and
    never rejects its timeout promise: at every point the call is pending or
    settled exactly like the wrapped promise. *)
Theorem waitWithTimeout_without_timeout (promise : pstate) (tr : list step) :
  truthy_number timeout = false ->
  let g := grun (waitWithTimeout timeout promise) tr in
  g_timer g = None /\ g_timeoutPromise g = Pending /\
  (g_result g = Pending \/ g_result g = g_promise g).
Proof.
  intros Hfalsy. cbn zeta.
  assert (Hinv : forall tr g,
             (g_timer g = None /\ g_timeoutPromise g = Pending /\
              g_race g = g_promise g /\
              (g_result g = Pending \/ g_result g = g_promise g)) ->
             let g' := grun g tr in
             g_timer g' = None /\ g_timeoutPromise g' = Pending /\
             g_race g' = g_promise g' /\
             (g_result g' = Pending \/ g_result g' = g_promise g')).
  { clear tr. induction tr as [|st tr IH]; intros g Hg; [exact Hg |].
    cbn zeta. rewrite guarded_run_cons. apply IH.
    destruct Hg as (Htimer & Htp & Hrace & Hres).
    assert (Hcp : let g1 := guarded_checkpoint g in
                  g_timer g1 = None /\ g_timeoutPromise g1 = Pending /\
                  g_race g1 = g_promise g1 /\
                  (g_result g1 = Pending \/ g_result g1 = g_promise g1)).
    { unfold guarded_checkpoint.
      destruct (is_pending (g_result g) && negb (is_pending (g_race g))); cbn; auto. }
    assert (Hwork : forall new,
               let g1 := settle_work new g in
               g_timer g1 = None /\ g_timeoutPromise g1 = Pending /\
               g_race g1 = g_promise g1 /\
               (g_result g1 = Pending \/ g_result g1 = g_promise g1)).
    { intros new. unfold settle_work.
      destruct (g_promise g) eqn:Hp; cbn [is_pending];
        cbn [g_timer g_timeoutPromise g_race g_promise g_result];
        rewrite ?Hrace, ?Hp; cbn [settle];
        (split; [exact Htimer |]); (split; [exact Htp |]); (split; [congruence |]);
        destruct Hres as [Hres | Hres]; [left | left | left | right | left | right];
        congruence. }
    destruct st as [name event | | v | v | v | v |]; cbn [guarded_step]; auto.
    destruct Hcp as (Ht & Hrest). rewrite Ht. split; [exact Ht | exact Hrest]. }
  destruct (Hinv tr (waitWithTimeout timeout promise)) as (H1 & H2 & _ & H4); auto.
  unfold waitWithTimeout. rewrite Hfalsy. cbn. repeat split; auto.
  now destruct promise.
Qed.

End GuardedRaceFacts.

Section GuardedRaceExamples.

Lemma waitWithTimeout_without_timeout_witness :
  let g := guarded_run "navigation" 0 (waitWithTimeout 0 Pending)
             [TimerFires; Microtasks; WorkResolved (Val (JStr "done")); Microtasks] in
  g_timer g = None /\ g_timeoutPromise g = Pending /\
  (g_result g = Pending \/ g_result g = g_promise g).
Proof.
  apply (waitWithTimeout_without_timeout "navigation" 0 Pending
           [TimerFires; Microtasks; WorkResolved (Val (JStr "done")); Microtasks]).
  reflexivity.
Defined.

Example waitWithTimeout_work_first :
  guarded_run "navigation" 30000 (waitWithTimeout 30000 Pending)
    [WorkResolved (Val (JStr "done")); Microtasks; TimerFires] =
  mkGuarded None (Fulfilled (Val (JStr "done"))) Pending
            (Fulfilled (Val (JStr "done"))) (Fulfilled (Val (JStr "done"))).
Proof. reflexivity. Qed.

End GuardedRaceExamples.

(** ** More on [waitForEvent] *)

Section WaitMoreFacts.

(** X6: whatever wins the race of [waitForEvent] without being an [Error]
    instance that fulfils it is passed on as it is: a rejection rejects the
    call with the same reason, [Error] or not, and a fulfilment with a value
    that is no [Error] is returned, also when the value comes from the
    abort promise and no event was seen. *)
Theorem waitForEvent_passes_winner_on
    (eventName : string) (predicate : value -> bool) (timeout : Z)
    (em : emitter) (abortPromise : pstate) (tr : list step) (c : cause) (s : pstate) :
  winner eventName predicate timeout abortPromise tr = Some (c, s) ->
  (forall v, s = Fulfilled v -> instanceof_Error v = false) ->
  w_result (wait_run predicate
              (waitForEvent eventName timeout em abortPromise) (tr ++ [Microtasks])) = s.
Proof.
  intros Hwin Hplain.
  pose proof (run_call_checkpoint eventName predicate timeout em abortPromise tr) as H.
  cbn zeta in H. rewrite Hwin in H. destruct H as (Hs & _ & Hres & _).
  rewrite Hres. destruct s as [|v|v]; [congruence | | reflexivity].
  cbn [after_await]. now rewrite (Hplain v eq_refl).
Qed.

(** An abort promise resolved with a plain value while the wait is on. *)
Lemma waitForEvent_passes_winner_on_witness :
  w_result (wait_run (fun _ => true)
              (waitForEvent "request" 30000 [] Pending)
              ([Emit "response" (Val JNull); AbortResolved (Val (JStr "stop"))] ++
               [Microtasks])) =
    Fulfilled (Val (JStr "stop")).
Proof.
  apply (waitForEvent_passes_winner_on "request" (fun _ => true) 30000 [] Pending
           [Emit "response" (Val JNull); AbortResolved (Val (JStr "stop"))] Aborted).
  - reflexivity.
  - intros v Hv. injection Hv as <-. reflexivity.
Defined.

(** X7: with a falsy timeout [waitForEvent] never arms a timer, and the
    promise it creates is never rejected: at every point of every trace it
    is pending or fulfilled with an event that passed the predicate. *)
Theorem waitForEvent_without_timeout
    (eventName : string) (predicate : value -> bool) (timeout : Z)
    (em : emitter) (abortPromise : pstate) (tr : list step) :
  truthy_number timeout = false ->
  let w := wait_run predicate (waitForEvent eventName timeout em abortPromise) tr in
  w_timer w = None /\
  (w_promise w = Pending \/
   exists event, w_promise w = Fulfilled event /\ predicate event = true).
Proof.
  intros Hfalsy. cbn zeta.
  assert (Hinv : forall tr w,
             (w_timer w = None /\
              (w_promise w = Pending \/
               exists event, w_promise w = Fulfilled event /\ predicate event = true)) ->
             let w' := wait_run predicate w tr in
             w_timer w' = None /\
             (w_promise w' = Pending \/
              exists event, w_promise w' = Fulfilled event /\ predicate event = true)).
  { clear tr. induction tr as [|st tr IH]; intros w Hw; [exact Hw |].
    cbn zeta. rewrite wait_run_cons. apply IH.
    destruct Hw as (Htimer & Hpromise).
    assert (Hcp : w_timer (checkpoint w) = None /\
                  w_promise (checkpoint w) = w_promise w).
    { unfold checkpoint.
      destruct (is_pending (w_result w) && negb (is_pending (w_race w))); cbn; auto. }
    destruct st as [name event | | v | v | v | v |]; cbn [wait_step].
    - destruct (registered name (l_handler (w_listener w)) (w_emitter w)); [| auto].
      unfold handler_body, resolveCallback.
      destruct (predicate event) eqn:Hpred; cbn [negb]; [| auto].
      destruct (is_pending (w_promise w)); [| auto].
      cbn. split; [exact Htimer |]. right. eauto.
    - destruct Hcp as (Ht & Hp). rewrite Ht. split; [exact Ht |]. now rewrite Hp.
    - unfold settle_abort. destruct (is_pending (w_abort w)); cbn; auto.
    - unfold settle_abort. destruct (is_pending (w_abort w)); cbn; auto.
    - auto.
    - auto.
    - destruct Hcp as (Ht & Hp). split; [exact Ht |]. now rewrite Hp. }
  apply Hinv. unfold waitForEvent. rewrite Hfalsy. cbn. auto.
Qed.

Lemma waitForEvent_without_timeout_witness :
  let w := wait_run (fun _ => false) (waitForEvent "request" 0 [] Pending)
             [TimerFires; Emit "request" (Val JNull); Microtasks] in
  w_timer w = None /\
  (w_promise w = Pending \/
   exists event, w_promise w = Fulfilled event /\ (fun _ : value => false) event = true).
Proof.
  apply (waitForEvent_without_timeout "request" (fun _ => false) 0 [] Pending
           [TimerFires; Emit "request" (Val JNull); Microtasks]).
  reflexivity.
Defined.

End WaitMoreFacts.

(** ** Listener arrays *)

Section ListenerFacts.

Local Open Scope list_scope.

Local Abbreviation registration_of := (fun l : listener => (l_eventName l, l_handler l)).

Lemma remove_first_middle {A} `{EqDecision A} (x : A) (l r : list A) :
  x ∉ l -> remove_first x (l ++ x :: r) = l ++ r.
Proof.
  induction l as [|y l IH]; intros Hx; simpl.
  - now rewrite bool_decide_eq_true_2.
  - rewrite not_elem_of_cons in Hx. destruct Hx as [Hne Hx].
    rewrite bool_decide_eq_false_2 by congruence. now rewrite IH.
Qed.

Lemma remove_first_absent {A} `{EqDecision A} (x : A) (l : list A) :
  x ∉ l -> remove_first x l = l.
Proof.
  induction l as [|y l IH]; intros Hx; simpl; [reflexivity |].
  rewrite not_elem_of_cons in Hx. destruct Hx as [Hne Hx].
  rewrite bool_decide_eq_false_2 by congruence. now rewrite IH.
Qed.

(** Removing registrations that are all there, once each, and nowhere
    before them. *)
Lemma removeEventListeners_appended (ls : list listener) (em : emitter) :
  NoDup (map registration_of ls) ->
  (forall l, l ∈ ls -> registration_of l ∉ em) ->
  removeEventListeners ls (em ++ map registration_of ls) = em.
Proof.
  unfold removeEventListeners.
  induction ls as [|l ls IH]; intros Hnodup Hfresh.
  - simpl. apply app_nil_r.
  - cbn [map fold_left]. unfold removeListener at 2.
    rewrite remove_first_middle by (apply Hfresh; left).
    apply IH.
    + now apply NoDup_cons_1_2 in Hnodup.
    + intros l' Hl'. apply Hfresh. now right.
Qed.

(** What [addEventListeners] builds: the registrations are appended in
    order, each handler newer than everything before it. *)
Lemma addEventListeners_shape (names : list string) :
  forall em : emitter,
    let r := addEventListeners names em in
    fst r = em ++ map registration_of (snd r) /\
    map l_eventName (snd r) = names /\
    NoDup (map registration_of (snd r)) /\
    (forall l, l ∈ snd r -> (list_max (map snd em) < l_handler l)%nat).
Proof.
  induction names as [|name names IH]; intros em; cbn zeta.
  - cbn. rewrite app_nil_r. repeat split; [constructor | intros l Hl; inversion Hl].
  - cbn [addEventListeners addEventListener fst snd].
    destruct (IH (on name (new_function em) em)) as (Hfst & Hnames & Hnodup & Hnew).
    assert (Hmax : list_max (map snd (on name (new_function em) em)) = new_function em).
    { unfold on. rewrite map_app, list_max_app. unfold new_function. cbn. lia. }
    rewrite Hmax in Hnew.
    split; [| split; [| split]].
    + rewrite Hfst. unfold on. cbn [map l_eventName l_handler].
      now rewrite <- app_assoc.
    + cbn [map l_eventName]. now rewrite Hnames.
    + cbn [map l_eventName l_handler]. constructor; [| exact Hnodup].
      intros Hin. apply list_elem_of_fmap in Hin as (l & Heq & Hl).
      specialize (Hnew l Hl). injection Heq as _ Heq. lia.
    + intros l Hl. apply elem_of_cons in Hl as [-> | Hl].
      * cbn. unfold new_function. lia.
      * specialize (Hnew l Hl). unfold new_function in Hnew. lia.
Qed.

(** X8: listeners collected from [addEventListener], one new handler per
    event name, and then handed to [removeEventListeners] leave the emitter
    exactly as it was before, whatever it held; and removing listeners that
    are not registered changes nothing. *)
Theorem removeEventListeners_undoes_addEventListener (names : list string) (em : emitter) :
  let r := addEventListeners names em in
  removeEventListeners (snd r) (fst r) = em /\
  map l_eventName (snd r) = names /\
  removeEventListeners (snd r) em = em.
Proof.
  cbn zeta. destruct (addEventListeners_shape names em) as (Hfst & Hnames & Hnodup & Hnew).
  assert (Hfresh : forall l, l ∈ snd (addEventListeners names em) -> registration_of l ∉ em).
  { intros l Hl Hin. specialize (Hnew l Hl).
    assert (Hle : Forall (fun k => (k <= list_max (map snd em))%nat) (map snd em))
      by (apply list_max_le; lia).
    rewrite Forall_forall in Hle.
    apply (list_elem_of_fmap_2 snd) in Hin. specialize (Hle _ Hin). cbn in Hle. lia. }
  split; [| split; [exact Hnames |]].
  - rewrite Hfst. now apply removeEventListeners_appended.
  - clear Hfst Hnames Hnodup Hnew. unfold removeEventListeners.
    induction (snd (addEventListeners names em)) as [|l ls IH]; [reflexivity |].
    cbn [fold_left]. unfold removeListener at 2.
    rewrite remove_first_absent by (apply Hfresh; left).
    apply IH. intros l' Hl'. apply Hfresh. now right.
Qed.

Example addEventListeners_then_remove :
  let em := [("close", 4%nat); ("request", 9%nat)] in
  addEventListeners ["request"; "response"; "request"] em =
    (em ++ [("request", 10%nat); ("response", 11%nat); ("request", 12%nat)],
     [mkListener "request" 10; mkListener "response" 11; mkListener "request" 12]).
Proof. reflexivity. Qed.

End ListenerFacts.

(** ** What the binding bridge keeps true *)

Section BridgeInvariant.

Local Open Scope list_scope.

(** A delivery that finds its entry, step by step. *)
Lemma deliver_found (d : delivery) (name : string) (seq : Z) (pg : page)
    (f : fn_object) (cbs : gmap Z nat) (p : nat) :
  window pg !! name = Some f -> callbacks f = Some cbs -> cbs !! seq = Some p ->
  deliver d name seq pg =
    (Return tt,
     mkPage (<[name := mkFn (kind f) (Some (delete seq cbs)) (lastSeq f)]> (window pg))
            (match promises pg !! p with
             | Some st => <[p := settle (delivered d) st]> (promises pg)
             | None => promises pg
             end)
            (outbox pg)).
Proof.
  intros Hf Hcbs Hseq. rewrite deliver_unfold.
  unfold pbind, callbacks_get, pbind, window_callbacks, settle_promise, callbacks_delete.
  simpl. rewrite Hf, Hcbs. simpl. rewrite Hseq. simpl. now rewrite Hf, Hcbs.
Qed.

(** A call through a wrapper installed over the native binding, step by
    step. *)
Lemma call_wrapper_run (pg : page) (name : string) (type : json) (me : fn_object)
    (args : list json) :
  window pg !! name = Some me ->
  kind me = Wrapper type name (Some Native) ->
  let seq := lastSeq_of pg name + 1 in
  let p := length (promises pg) in
  call_global name args pg =
    (Return (Some p),
     mkPage (<[name := mkFn (kind me) (Some (<[seq := p]> (default ∅ (callbacks me))))
                         (Some seq)]> (window pg))
            (promises pg ++ [Pending])
            (outbox pg ++
             [default "" (JSON_stringify
                (JObj [("type", type); ("name", JStr name);
                       ("seq", JNum seq); ("args", JArr args)]))])).
Proof.
  intros Hme Hkind. cbn zeta. unfold call_global, lastSeq_of.
  rewrite Hme, Hkind. cbn [call]. rewrite Hme, Hkind. reflexivity.
Qed.

Lemma entry_insert (pg : page) (name : string) (f : fn_object) (ps : list pstate)
    (out : list string) (n : string) (s : Z) :
  entry (mkPage (<[name := f]> (window pg)) ps out) n s =
    if bool_decide (n = name)
    then match callbacks f with Some cbs => cbs !! s | None => None end
    else entry pg n s.
Proof.
  unfold entry. cbn [window]. case_bool_decide as Hn.
  - subst n. now rewrite lookup_insert_eq.
  - now rewrite lookup_insert_ne by congruence.
Qed.

Lemma lastSeq_of_insert (pg : page) (name : string) (f : fn_object) (ps : list pstate)
    (out : list string) (n : string) :
  lastSeq_of (mkPage (<[name := f]> (window pg)) ps out) n =
    if bool_decide (n = name) then default 0 (lastSeq f) else lastSeq_of pg n.
Proof.
  unfold lastSeq_of. cbn [window]. case_bool_decide as Hn.
  - subst n. now rewrite lookup_insert_eq.
  - now rewrite lookup_insert_ne by congruence.
Qed.

(** The invariant does not look at the outbox. *)
Lemma bridge_ok_outbox (w : gmap string fn_object) (ps : list pstate) (o o' : list string) :
  bridge_ok (mkPage w ps o) -> bridge_ok (mkPage w ps o').
Proof. intros H. exact H. Qed.

Lemma bridge_ok_install (type : json) (name : string) (pg : page) :
  bridge_ok pg -> bridge_ok (snd (addPageBinding type name pg)).
Proof.
  intros (HA & HB & HC). unfold addPageBinding. cbn [snd].
  split; [| split].
  - intros n s p. rewrite entry_insert, lastSeq_of_insert.
    case_bool_decide; [discriminate | apply HA].
  - intros n1 s1 n2 s2 p. rewrite !entry_insert.
    repeat case_bool_decide; try discriminate. apply HB.
  - intros n. rewrite lastSeq_of_insert. case_bool_decide; [cbn; lia | apply HC].
Qed.

Lemma bridge_ok_call :
  forall (f : fn_kind) (args : list json) (pg : page),
    bridge_ok pg -> bridge_ok (snd (call f args pg)).
Proof.
  fix IH 1. intros f args pg Hok. destruct f as [| type name binding].
  - cbn [call]. destruct args as [|[| | | | payload | |] [|? ?]]; exact Hok.
  - cbn [call]. destruct (window pg !! name) as [me|] eqn:Hme; [| exact Hok].
    set (cbs := default ∅ (callbacks me)).
    set (seq := default 0 (lastSeq me) + 1).
    set (pg1 := mkPage _ (promises pg ++ [Pending]) (outbox pg)).
    assert (Hok1 : bridge_ok pg1).
    { destruct Hok as (HA & HB & HC).
      assert (Hlast : lastSeq_of pg name = default 0 (lastSeq me))
        by (unfold lastSeq_of; now rewrite Hme).
      assert (Hold : forall s, cbs !! s = entry pg name s).
      { intros s. unfold entry, cbs. rewrite Hme.
        destruct (callbacks me); [reflexivity | apply lookup_empty]. }
      assert (Hentry : forall n s,
                 entry pg1 n s =
                 if bool_decide (n = name /\ s = seq) then Some (length (promises pg))
                 else entry pg n s).
      { intros n s. unfold pg1. rewrite entry_insert. cbn [callbacks].
        case_bool_decide as Hn; case_bool_decide as Hns; try tauto.
        - destruct Hns as [_ ->]. apply lookup_insert_eq.
        - subst n. rewrite lookup_insert_ne by (intros ->; tauto). apply Hold. }
      assert (Hbelow : forall n s p, entry pg n s = Some p -> (p < length (promises pg))%nat).
      { intros n s p Hp. apply HA in Hp as [Hp _]. now apply lookup_lt_Some in Hp. }
      assert (Hseq : forall s p, entry pg name s = Some p -> s < seq).
      { intros s p Hp. apply HA in Hp as [_ Hs]. unfold seq. lia. }
      split; [| split].
      - intros n s p. rewrite Hentry. unfold pg1. rewrite lastSeq_of_insert. cbn [promises lastSeq].
        case_bool_decide as Hns.
        + destruct Hns as [-> ->]. intros Hp. injection Hp as <-.
          rewrite bool_decide_eq_true_2 by reflexivity.
          split; [now rewrite lookup_app_r, Nat.sub_diag |].
          specialize (HC name). unfold default, from_option, id, seq. cbn. lia.
        + intros Hp. destruct (HA n s p Hp) as [Hpending Hs].
          split; [now apply lookup_app_l_Some |].
          case_bool_decide as Hn; [| exact Hs].
          subst n. specialize (Hseq s p Hp). unfold default, from_option, id. cbn. lia.
      - intros n1 s1 n2 s2 p. rewrite !Hentry.
        case_bool_decide as H1; case_bool_decide as H2.
        + destruct H1 as [-> ->], H2 as [-> ->]. auto.
        + intros Hp Hq. injection Hp as <-. apply Hbelow in Hq. lia.
        + intros Hq Hp. injection Hp as <-. apply Hbelow in Hq. lia.
        + apply HB.
      - intros n. unfold pg1. rewrite lastSeq_of_insert. cbn [lastSeq].
        case_bool_decide; [| apply HC].
        specialize (HC name). unfold default, from_option, id, seq. cbn. lia. }
    destruct binding as [b|]; [| exact Hok1].
    pose proof (IH b [JStr (default "" (JSON_stringify
                  (JObj [("type", type); ("name", JStr name);
                         ("seq", JNum seq); ("args", JArr args)])))] pg1 Hok1) as Hok2.
    destruct (call b _ pg1) as [[r | e] pg2]; exact Hok2.
Qed.

Lemma bridge_ok_deliver (d : delivery) (name : string) (seq : Z) (pg : page) :
  bridge_ok pg -> bridge_ok (snd (deliver d name seq pg)).
Proof.
  intros Hok. destruct (entry pg name seq) as [p|] eqn:Hentry.
  2:{ destruct (deliver_not_found d name seq pg Hentry) as (e & -> & _). exact Hok. }
  pose proof Hentry as Hentry'. unfold entry in Hentry'.
  destruct (window pg !! name) as [f|] eqn:Hf; [| discriminate].
  destruct (callbacks f) as [cbs|] eqn:Hcbs; [| discriminate].
  rewrite (deliver_found d name seq pg f cbs p Hf Hcbs Hentry'). cbn [snd].
  destruct Hok as (HA & HB & HC).
  destruct (HA name seq p Hentry) as [Hpending _]. rewrite Hpending.
  assert (Hnew : forall n s q,
             entry (mkPage (<[name := mkFn (kind f) (Some (delete seq cbs)) (lastSeq f)]>
                              (window pg))
                           (<[p := settle (delivered d) Pending]> (promises pg))
                           (outbox pg)) n s = Some q ->
             entry pg n s = Some q /\ q <> p).
  { intros n s q. rewrite entry_insert. cbn [callbacks].
    case_bool_decide as Hn.
    - subst n. intros Hq.
      destruct (decide (s = seq)) as [-> | Hs]; [now rewrite lookup_delete_eq in Hq |].
      rewrite lookup_delete_ne in Hq by congruence.
      assert (Hq' : entry pg name s = Some q) by (unfold entry; now rewrite Hf, Hcbs).
      split; [exact Hq' |]. intros ->.
      destruct (HB name s name seq p Hq' Hentry). congruence.
    - intros Hq. split; [exact Hq |]. intros ->.
      destruct (HB n s name seq p Hq Hentry). congruence. }
  assert (Hlast : forall n,
             lastSeq_of (mkPage (<[name := mkFn (kind f) (Some (delete seq cbs)) (lastSeq f)]>
                                   (window pg))
                                (<[p := settle (delivered d) Pending]> (promises pg))
                                (outbox pg)) n = lastSeq_of pg n).
  { intros n. rewrite lastSeq_of_insert. case_bool_decide as Hn; [| reflexivity].
    subst n. unfold lastSeq_of. now rewrite Hf. }
  split; [| split].
  - intros n s q Hq. apply Hnew in Hq as [Hq Hne]. rewrite Hlast. cbn [promises].
    destruct (HA n s q Hq) as [Hpq Hs]. split; [| exact Hs].
    now rewrite list_lookup_insert_ne by congruence.
  - intros n1 s1 n2 s2 q H1 H2. apply Hnew in H1 as [H1 _], H2 as [H2 _].
    exact (HB _ _ _ _ _ H1 H2).
  - intros n. rewrite Hlast. apply HC.
Qed.

Lemma bridge_ok_op (op : page_op) (pg : page) :
  bridge_ok pg -> bridge_ok (run_op op pg).
Proof.
  intros Hok. destruct op as [type name | name args | d name seq]; cbn [run_op].
  - now apply bridge_ok_install.
  - unfold call_global. destruct (window pg !! name) as [f|]; [| exact Hok].
    now apply bridge_ok_call.
  - now apply bridge_ok_deliver.
Qed.

(** X9: installing bindings, calling them and delivering, in any order
    and with any arguments, keeps the bridge's bookkeeping sound: every
    entry of a callbacks map holds a promise that is still pending, under a
    sequence number between 1 and the binding's [lastSeq], and no promise is
    held by two entries.  So every entry that can be found can be delivered
    to. *)
Theorem bridge_bookkeeping_is_kept (ops : list page_op) (pg : page) :
  bridge_ok pg ->
  bridge_ok (run_ops ops pg) /\
  forall name seq p,
    entry (run_ops ops pg) name seq = Some p ->
    pending_entry (run_ops ops pg) name seq p.
Proof.
  intros Hok.
  assert (Hops : bridge_ok (run_ops ops pg)).
  { revert pg Hok. induction ops as [|op ops IH]; intros pg Hok; [exact Hok |].
    cbn [run_ops fold_left]. apply IH, bridge_ok_op, Hok. }
  split; [exact Hops |].
  intros name seq p Hentry. destruct Hops as (HA & _).
  destruct (HA name seq p Hentry) as [Hpending _].
  unfold entry in Hentry. unfold pending_entry.
  destruct (window (run_ops ops pg) !! name) as [f|] eqn:Hf; [| discriminate].
  destruct (callbacks f) as [cbs|] eqn:Hcbs; [| discriminate].
  exists f, cbs. repeat split; assumption.
Qed.

End BridgeInvariant.

Section BridgeSequences.

Local Open Scope list_scope.

(** A page whose functions have never been used as bindings. *)
Lemma bridge_ok_fresh (pg : page) :
  (forall name f, window pg !! name = Some f -> callbacks f = None /\ lastSeq f = None) ->
  bridge_ok pg.
Proof.
  intros Hfresh.
  assert (Hnone : forall name seq, entry pg name seq = None).
  { intros name seq. unfold entry. destruct (window pg !! name) as [f|] eqn:Hf; [| reflexivity].
    now destruct (Hfresh name f Hf) as [-> _]. }
  split; [| split].
  - intros name seq p. now rewrite Hnone.
  - intros n1 s1 n2 s2 p. now rewrite Hnone.
  - intros name. unfold lastSeq_of. destruct (window pg !! name) as [f|] eqn:Hf; [| lia].
    destruct (Hfresh name f Hf) as [_ ->]. cbn. lia.
Qed.

(** A page with the native binding [foo]; the init script is evaluated,
    page script calls the binding twice, the host answers the first call. *)
Lemma bridge_bookkeeping_is_kept_witness :
  let pg0 := mkPage {[ "foo" := mkFn Native None None ]} [] [] in
  let ops := [Install (JStr "exposedFun") "foo"; Call "foo" [JNum 1]; Call "foo" [JNum 2];
              Deliver (OfResult (JStr "one")) "foo" 1] in
  bridge_ok (run_ops ops pg0) /\
  entry (run_ops ops pg0) "foo" 1 = None /\
  pending_entry (run_ops ops pg0) "foo" 2 1.
Proof.
  intros pg0 ops.
  assert (Hok : bridge_ok pg0).
  { apply bridge_ok_fresh. intros name f Hf.
    unfold pg0 in Hf. cbn [window] in Hf.
    apply lookup_singleton_Some in Hf as [_ <-]. split; reflexivity. }
  destruct (bridge_bookkeeping_is_kept ops pg0 Hok) as [Hkept Hdeliverable].
  split; [exact Hkept |]. split; [vm_compute; reflexivity |].
  apply Hdeliverable. vm_compute. reflexivity.
Defined.

(** X10: in a page whose bookkeeping is sound, a call through an
    installed binding gets the sequence number [lastSeq + 1], which no
    pending call holds, parks a new pending promise under it, hands exactly
    one payload to the host and leaves every other entry alone; a delivery
    never changes [lastSeq], so a number that was delivered to is not given
    out again. *)
Theorem call_takes_a_fresh_sequence_number (pg : page) (name : string) (type : json)
    (me : fn_object) (args : list json) :
  bridge_ok pg ->
  window pg !! name = Some me ->
  kind me = Wrapper type name (Some Native) ->
  let seq := lastSeq_of pg name + 1 in
  let p := length (promises pg) in
  exists pg' payload,
    call_global name args pg = (Return (Some p), pg') /\
    entry pg name seq = None /\
    entry pg' name seq = Some p /\
    promises pg' = promises pg ++ [Pending] /\
    (forall n s, (n, s) <> (name, seq) -> entry pg' n s = entry pg n s) /\
    lastSeq_of pg' name = seq /\
    outbox pg' = outbox pg ++ [payload] /\
    forall d n s other,
      lastSeq_of (run_op (Deliver d n s) pg') other = lastSeq_of pg' other.
Proof.
  intros Hok Hme Hkind. cbn zeta.
  rewrite (call_wrapper_run pg name type me args Hme Hkind).
  eexists _, _. split; [reflexivity |].
  split.
  { destruct (entry pg name (lastSeq_of pg name + 1)) as [q|] eqn:Hq; [| reflexivity].
    destruct Hok as (HA & _). apply HA in Hq as [_ Hq]. lia. }
  split.
  { rewrite entry_insert, bool_decide_eq_true_2 by reflexivity. cbn [callbacks].
    apply lookup_insert_eq. }
  split; [reflexivity |].
  split.
  { intros n s Hns. rewrite entry_insert. cbn [callbacks].
    case_bool_decide as Hn; [| reflexivity]. subst n.
    rewrite lookup_insert_ne by congruence.
    unfold entry. rewrite Hme. destruct (callbacks me); [reflexivity | apply lookup_empty]. }
  split.
  { rewrite lastSeq_of_insert, bool_decide_eq_true_2 by reflexivity. reflexivity. }
  split; [reflexivity |].
  intros d n s other. cbn [run_op].
  match goal with |- lastSeq_of (snd (deliver d n s ?pg1)) other = _ => set (pg' := pg1) end.
  destruct (entry pg' n s) as [q|] eqn:Hentry.
  2:{ now destruct (deliver_not_found d n s pg' Hentry) as (e & -> & _). }
  pose proof Hentry as Hentry'. unfold entry in Hentry'.
  destruct (window pg' !! n) as [f|] eqn:Hf; [| discriminate].
  destruct (callbacks f) as [cbs|] eqn:Hcbs; [| discriminate].
  rewrite (deliver_found d n s pg' f cbs q Hf Hcbs Hentry'). cbn [snd].
  rewrite lastSeq_of_insert. case_bool_decide as Hn; [| reflexivity].
  subst other. unfold lastSeq_of. now rewrite Hf.
Qed.

Lemma call_takes_a_fresh_sequence_number_witness :
  let pg0 := mkPage {[ "foo" := mkFn Native None None ]} [] [] in
  let pg := run_ops [Install (JStr "exposedFun") "foo"; Call "foo" []] pg0 in
  exists pg' payload,
    call_global "foo" [JBool true] pg = (Return (Some 1%nat), pg') /\
    entry pg' "foo" 2 = Some 1%nat /\
    outbox pg' = outbox pg ++ [payload].
Proof.
  intros pg0 pg.
  assert (Hok0 : bridge_ok pg0).
  { apply bridge_ok_fresh. intros name f Hf.
    unfold pg0 in Hf. cbn [window] in Hf.
    apply lookup_singleton_Some in Hf as [_ <-]. split; reflexivity. }
  assert (Hok : bridge_ok pg).
  { unfold pg, run_ops. cbn [fold_left]. now do 2 apply bridge_ok_op. }
  destruct (call_takes_a_fresh_sequence_number pg "foo" (JStr "exposedFun")
              (mkFn (Wrapper (JStr "exposedFun") "foo" (Some Native))
                    (Some {[ 1 := 0%nat ]}) (Some 1))
              [JBool true] Hok)
    as (pg' & payload & Hcall & _ & Hentry & _ & _ & _ & Hout & _).
  - vm_compute. reflexivity.
  - reflexivity.
  - exists pg', payload. split; [exact Hcall |]. split; [exact Hentry | exact Hout].
Defined.

(** X11: two calls of an installed binding that are still open may be
    answered in the opposite order: each caller's promise is settled with
    the delivery made for its own sequence number, and both entries are
    gone afterwards. *)
Theorem deliveries_may_arrive_out_of_order (pg : page) (name : string) (type : json)
    (me : fn_object) (args1 args2 : list json) (d1 d2 : delivery) :
  window pg !! name = Some me ->
  kind me = Wrapper type name (Some Native) ->
  let seq1 := lastSeq_of pg name + 1 in
  let p1 := length (promises pg) in
  let pg' := run_ops [Call name args1; Call name args2;
                      Deliver d2 name (seq1 + 1); Deliver d1 name seq1] pg in
  fst (call_global name args1 pg) = Return (Some p1) /\
  fst (call_global name args2 (run_op (Call name args1) pg)) = Return (Some (S p1)) /\
  promises pg' !! p1 = Some (delivered d1) /\
  promises pg' !! S p1 = Some (delivered d2) /\
  entry pg' name seq1 = None /\
  entry pg' name (seq1 + 1) = None.
Proof.
  intros Hme Hkind. cbn zeta.
  unfold run_ops. cbn [fold_left run_op].
  rewrite (call_wrapper_run pg name type me args1 Hme Hkind). cbn [fst snd].
  set (seq1 := lastSeq_of pg name + 1).
  set (p1 := length (promises pg)).
  set (cbs := default ∅ (callbacks me)).
  match goal with |- context [call_global name args2 ?pg1] => set (pga := pg1) end.
  assert (Hme1 : window pga !! name =
                 Some (mkFn (kind me) (Some (<[seq1 := p1]> cbs)) (Some seq1)))
    by apply lookup_insert_eq.
  assert (Hlast1 : lastSeq_of pga name = seq1)
    by (unfold lastSeq_of; now rewrite Hme1).
  rewrite (call_wrapper_run pga name type _ args2 Hme1 Hkind). cbn [fst snd].
  rewrite Hlast1. cbn [callbacks default from_option id kind].
  replace (length (promises pga)) with (S p1)
    by (unfold pga; cbn [promises]; rewrite length_app; cbn; unfold p1; lia).
  split; [reflexivity |]. split; [reflexivity |].
  match goal with |- context [deliver d2 name (seq1 + 1) ?pg2] => set (pgb := pg2) end.
  assert (Hne : seq1 <> seq1 + 1) by lia.
  assert (Hmeb : window pgb !! name =
                 Some (mkFn (kind me) (Some (<[seq1 + 1 := S p1]> (<[seq1 := p1]> cbs)))
                            (Some (seq1 + 1))))
    by apply lookup_insert_eq.
  rewrite (deliver_found d2 name (seq1 + 1) pgb _ _ (S p1) Hmeb eq_refl)
    by apply lookup_insert_eq.
  cbn [snd kind lastSeq].
  assert (Hpb : promises pgb = promises pg ++ [Pending; Pending]).
  { unfold pgb, pga. cbn [promises]. now rewrite <- app_assoc. }
  rewrite Hpb.
  assert (Hp2 : (promises pg ++ [Pending; Pending]) !! S p1 = Some Pending).
  { rewrite lookup_app_r by (unfold p1; lia).
    now replace (S p1 - length (promises pg))%nat with 1%nat by (unfold p1; lia). }
  assert (Hp1 : (promises pg ++ [Pending; Pending]) !! p1 = Some Pending).
  { rewrite lookup_app_r by (unfold p1; lia).
    now replace (p1 - length (promises pg))%nat with 0%nat by (unfold p1; lia). }
  rewrite Hp2. cbn [settle].
  match goal with |- context [deliver d1 name seq1 ?pg3] => set (pgc := pg3) end.
  assert (Hmec : window pgc !! name =
                 Some (mkFn (kind me)
                            (Some (delete (seq1 + 1)
                                     (<[seq1 + 1 := S p1]> (<[seq1 := p1]> cbs))))
                            (Some (seq1 + 1))))
    by apply lookup_insert_eq.
  rewrite (deliver_found d1 name seq1 pgc _ _ p1 Hmec eq_refl)
    by (rewrite lookup_delete_ne, lookup_insert_ne by lia; apply lookup_insert_eq).
  cbn [snd kind lastSeq].
  assert (Hpc : promises pgc =
                <[S p1 := delivered d2]> (promises pg ++ [Pending; Pending]))
    by reflexivity.
  assert (Hlen : length (promises pg ++ [Pending; Pending]) = S (S p1))
    by (rewrite length_app; cbn; unfold p1; lia).
  rewrite !Hpc, list_lookup_insert_ne, Hp1 by lia. cbn [settle].
  split; [cbn [promises]; apply list_lookup_insert_eq; rewrite length_insert, Hlen; lia |].
  split.
  { cbn [promises]. rewrite list_lookup_insert_ne by lia.
    apply list_lookup_insert_eq. rewrite Hlen. lia. }
  rewrite !entry_insert, !bool_decide_eq_true_2 by reflexivity. cbn [callbacks].
  split; [apply lookup_delete_eq |].
  rewrite lookup_delete_ne by lia. apply lookup_delete_eq.
Qed.

Lemma deliveries_may_arrive_out_of_order_witness :
  let pg0 := mkPage {[ "foo" := mkFn Native None None ]} [] [] in
  let pg := run_op (Install (JStr "exposedFun") "foo") pg0 in
  let pg' := run_ops [Call "foo" [JStr "a"]; Call "foo" [JStr "b"];
                      Deliver (OfError "boom" "at host") "foo" 2;
                      Deliver (OfResult (JStr "A")) "foo" 1] pg in
  promises pg' !! 0%nat = Some (Fulfilled (Val (JStr "A"))) /\
  promises pg' !! 1%nat = Some (Rejected (ErrorObject (mkError PlainError "boom"))).
Proof.
  intros pg0 pg pg'.
  destruct (deliveries_may_arrive_out_of_order pg "foo" (JStr "exposedFun")
              (mkFn (Wrapper (JStr "exposedFun") "foo" (Some Native)) None None)
              [JStr "a"] [JStr "b"] (OfResult (JStr "A")) (OfError "boom" "at host"))
    as (_ & _ & H1 & H2 & _).
  - vm_compute. reflexivity.
  - reflexivity.
  - split; [exact H1 | exact H2].
Defined.

End BridgeSequences.

(** ** More on the stream reader *)

Section StreamMoreFacts.

Local Open Scope list_scope.

Variable base64Decode : string -> completion bytes.
Variable concatUint8Array : list bytes -> completion bytes.
Variable handle : string.

Local Abbreviation io_read := (mkCommand "IO.read" handle).
Local Abbreviation io_close := (mkCommand "IO.close" handle).
Local Abbreviation decodes_to := (fun r b => decode_chunk base64Decode r = Return b).
Local Abbreviation stream := (readProtocolStream base64Decode concatUint8Array handle).

(** The world after [n] reads that brought [out] to a destination. *)
Local Abbreviation after_reads := (fun (w : world) (n : nat) (path : option string)
                                       (out : bytes) (handles : list string) =>
  mkWorld (issued w ++ repeat io_read n)
          (match given path with
           | Some p => <[p := write_at (default [] (files w !! p)) 0 out]> (files w)
           | None => files w
           end)
          (denied w) handles (diagnostics w)).

(** The run up to the end of the loop, whatever comes next. *)
Lemma readProtocolStream_after_loop (path : option string) (init : list response)
    (last : response) (bs : list bytes) (rs : list reply) (w : world) :
  (forall p, given path = Some p -> p ∉ denied w) ->
  Forall (fun r => eof r = false) init ->
  eof last = true ->
  Forall2 decodes_to (init ++ [last]) bs ->
  stream path (map Result (init ++ [last]) ++ rs) w =
  iobind (client_send io_close) (fun _ =>
    ioret (match concatUint8Array bs with
           | Return resultArr => Some resultArr
           | Throw _ => None
           end))
    rs (after_reads w (length (init ++ [last])) path (concat bs) (open_handles w)).
Proof.
  intros Hallowed Heof Hlast Hdec.
  apply Forall2_app_inv_l in Hdec as (bs1 & bl & Hbs1 & Hbl & ->).
  inversion Hbl as [|? b ? ? Hb Hnil]; subst. inversion Hnil; subst.
  assert (Hcount : forall l : list command,
             (l ++ repeat io_read (length init)) ++ [io_read] =
             l ++ repeat io_read (length (init ++ [last]))).
  { intros l. rewrite length_app, Nat.add_comm. cbn [length Nat.add].
    now rewrite repeat_S_end, app_assoc. }
  destruct (given path) as [p|] eqn:Hpath.
  - specialize (Hallowed p eq_refl).
    set (content := default [] (files w !! p)).
    set (files1 := match files w !! p with
                   | Some _ => files w
                   | None => <[p := []]> (files w)
                   end).
    assert (Hfiles1 : files1 !! p = Some content).
    { unfold files1, content. destruct (files w !! p) eqn:E; [exact E |].
      apply lookup_insert_eq. }
    assert (Hover : forall x, <[p := x]> files1 = <[p := x]> (files w)).
    { intros x. unfold files1. destruct (files w !! p); [reflexivity |].
      apply insert_insert_eq. }
    unfold readProtocolStream, iobind at 1. rewrite Hpath.
    unfold iobind at 1, Deno_open. rewrite bool_decide_eq_false_2 by exact Hallowed.
    fold files1. unfold ioret at 1. unfold iobind at 1.
    rewrite map_app, <- app_assoc.
    rewrite (read_loop_tee base64Decode handle path p init Hpath bs1 0 content [] _
               (mkWorld (issued w) files1 (denied w) (p :: open_handles w) (diagnostics w))
               Heof Hbs1 Hfiles1)
      by lia.
    cbn [map app read_loop].
    unfold on_response, iobind, of_completion. rewrite Hb, Hpath.
    unfold Deno_writeAll, close_file, ioret, issue. rewrite Hlast.
    cbn [issued files denied open_handles diagnostics fh_path fh_cursor remove_first].
    rewrite bool_decide_eq_true_2 by reflexivity.
    rewrite lookup_insert_eq. cbn [default from_option]. unfold id.
    rewrite insert_insert_eq, write_at_app by lia.
    rewrite Hover, concat_app, Hcount. cbn [concat]. rewrite app_nil_r.
    reflexivity.
  - unfold readProtocolStream, iobind at 1. rewrite Hpath. unfold ioret at 1.
    unfold iobind at 1.
    rewrite map_app, <- app_assoc,
      (read_loop_plain base64Decode handle path init Hpath bs1 None [] _ w Heof Hbs1).
    cbn [map app read_loop].
    unfold on_response, iobind, of_completion. rewrite Hb, Hpath.
    unfold ioret, issue. rewrite Hlast.
    cbn [issued files denied open_handles diagnostics].
    rewrite Hcount. reflexivity.
Qed.

(** X12: when the engine rejects [IO.close], the call is rejected with
    that error although the whole stream has been read: every chunk has
    been written to the destination, the file handle is closed, [IO.close]
    has been issued once, and the collected bytes are lost to the caller.
    When the destination cannot be opened, the call is rejected before
    anything is issued. *)
Theorem readProtocolStream_close_rejected (path : option string) (init : list response)
    (last : response) (bs : list bytes) (e : error) (rest : list reply) (w : world) :
  Forall (fun r => eof r = false) init ->
  eof last = true ->
  Forall2 decodes_to (init ++ [last]) bs ->
  ((forall p, given path = Some p -> p ∉ denied w) ->
   stream path (map Result (init ++ [last]) ++ Failure e :: rest) w =
     (Failed e, rest,
      mkWorld (issued w ++ repeat io_read (length (init ++ [last])) ++ [io_close])
              (match given path with
               | Some p =>
                   <[p := concat bs ++ drop (length (concat bs)) (default [] (files w !! p))]>
                     (files w)
               | None => files w
               end)
              (denied w) (open_handles w) (diagnostics w))) /\
  (forall p rs,
      given path = Some p -> p ∈ denied w ->
      exists e', stream path rs w = (Failed e', rs, w)).
Proof.
  intros Heof Hlast Hdec. split.
  - intros Hallowed.
    rewrite (readProtocolStream_after_loop path init last bs _ w Hallowed Heof Hlast Hdec).
    unfold iobind, client_send, issue.
    cbn [issued files denied open_handles diagnostics].
    now rewrite <- app_assoc.
  - intros p rs Hpath Hdenied. eexists.
    unfold readProtocolStream, iobind at 1. rewrite Hpath.
    unfold iobind at 1, Deno_open. rewrite bool_decide_eq_true_2 by exact Hdenied.
    reflexivity.
Qed.

(** X13: when the engine rejects an [IO.read], the call is rejected with
    that error; no [IO.close] is issued, the chunks that had arrived are in
    the destination, and the destination is left open. *)
Theorem readProtocolStream_read_rejected (path : option string) (init : list response)
    (bs : list bytes) (e : error) (rest : list reply) (w : world) :
  (forall p, given path = Some p -> p ∉ denied w) ->
  Forall (fun r => eof r = false) init ->
  Forall2 decodes_to init bs ->
  stream path (map Result init ++ Failure e :: rest) w =
    (Failed e, rest,
     mkWorld (issued w ++ repeat io_read (S (length init)))
             (match given path with
              | Some p =>
                  <[p := concat bs ++ drop (length (concat bs)) (default [] (files w !! p))]>
                    (files w)
              | None => files w
              end)
             (denied w)
             (match given path with
              | Some p => p :: open_handles w
              | None => open_handles w
              end)
             (diagnostics w)).
Proof.
  intros Hallowed Heof Hdec.
  destruct (given path) as [p|] eqn:Hpath.
  - specialize (Hallowed p eq_refl).
    set (content := default [] (files w !! p)).
    set (files1 := match files w !! p with
                   | Some _ => files w
                   | None => <[p := []]> (files w)
                   end).
    assert (Hfiles1 : files1 !! p = Some content).
    { unfold files1, content. destruct (files w !! p) eqn:E; [exact E |].
      apply lookup_insert_eq. }
    assert (Hover : forall x, <[p := x]> files1 = <[p := x]> (files w)).
    { intros x. unfold files1. destruct (files w !! p); [reflexivity |].
      apply insert_insert_eq. }
    unfold readProtocolStream, iobind at 1. rewrite Hpath.
    unfold iobind at 1, Deno_open. rewrite bool_decide_eq_false_2 by exact Hallowed.
    fold files1. unfold ioret at 1. unfold iobind at 1.
    rewrite (read_loop_tee base64Decode handle path p init Hpath bs 0 content [] _
               (mkWorld (issued w) files1 (denied w) (p :: open_handles w) (diagnostics w))
               Heof Hdec Hfiles1)
      by lia.
    cbn [read_loop]. unfold issue. cbn [issued files denied open_handles diagnostics].
    now rewrite Hover, repeat_S_end, app_assoc.
  - unfold readProtocolStream, iobind at 1. rewrite Hpath. unfold ioret at 1.
    unfold iobind at 1.
    rewrite (read_loop_plain base64Decode handle path init Hpath bs None [] _ w Heof Hdec).
    cbn [read_loop]. unfold issue. cbn [issued files denied open_handles diagnostics].
    now rewrite repeat_S_end, app_assoc.
Qed.

End StreamMoreFacts.

Section StreamMoreExamples.

Local Open Scope list_scope.

Lemma readProtocolStream_close_rejected_witness :
  let chunk1 := mkResponse "QQ==" true false in
  let chunk2 := mkResponse "Qg==" true true in
  let gone := mkError RemoteCommandError "Invalid stream handle" in
  let w := mkWorld [] ∅ ∅ [] [] in
  readProtocolStream Base64.base64Decode concat_std "stream-1" (Some "out.bin")
    (map Result ([chunk1] ++ [chunk2]) ++ Failure gone :: []) w =
  (Failed gone, [],
   mkWorld [mkCommand "IO.read" "stream-1"; mkCommand "IO.read" "stream-1";
            mkCommand "IO.close" "stream-1"]
           {[ "out.bin" := [Byte.x41; Byte.x42] ]} ∅ [] []).
Proof.
  intros chunk1 chunk2 gone w.
  rewrite (proj1 (readProtocolStream_close_rejected Base64.base64Decode concat_std
                    "stream-1" (Some "out.bin") [chunk1] chunk2
                    [[Byte.x41]; [Byte.x42]] gone [] w
                    ltac:(repeat constructor) eq_refl ltac:(repeat constructor))).
  - reflexivity.
  - intros p _. apply not_elem_of_empty.
Defined.

Lemma readProtocolStream_read_rejected_witness :
  let chunk1 := mkResponse "QQ==" true false in
  let gone := mkError RemoteCommandError "Target closed" in
  let w := mkWorld [] ∅ ∅ [] [] in
  readProtocolStream Base64.base64Decode concat_std "stream-1" (Some "out.bin")
    (map Result [chunk1] ++ Failure gone :: []) w =
  (Failed gone, [],
   mkWorld [mkCommand "IO.read" "stream-1"; mkCommand "IO.read" "stream-1"]
           {[ "out.bin" := [Byte.x41] ]} ∅ ["out.bin"] []).
Proof.
  intros chunk1 gone w.
  rewrite (readProtocolStream_read_rejected Base64.base64Decode concat_std
             "stream-1" (Some "out.bin") [chunk1] [[Byte.x41]] gone [] w).
  - reflexivity.
  - intros p _. apply not_elem_of_empty.
  - repeat constructor.
  - repeat constructor.
Defined.

Lemma concat_empty_cons (x : string) (xs : list string) :
  String.concat "" (x :: xs) = (x ++ String.concat "" xs)%string.
Proof.
  destruct xs as [|y ys]; [| reflexivity].
  cbn [String.concat]. now rewrite append_nil_r_string.
Qed.

Lemma list_byte_of_string_append (a b : string) :
  list_byte_of_string (a ++ b)%string = list_byte_of_string a ++ list_byte_of_string b.
Proof.
  induction a as [|c a IH]; [reflexivity |].
  change (byte_of_ascii c :: list_byte_of_string (a ++ b)%string =
          byte_of_ascii c :: (list_byte_of_string a ++ list_byte_of_string b)).
  now rewrite IH.
Qed.

Lemma text_chunks_decode (decoder : string -> completion bytes) (chunks : list response) :
  Forall (fun r => base64Encoded r = false) chunks ->
  Forall2 (fun r b => decode_chunk decoder r = Return b) chunks
          (map (fun r => TextEncoder_encode (data r)) chunks) /\
  concat (map (fun r => TextEncoder_encode (data r)) chunks) =
    TextEncoder_encode (String.concat "" (map data chunks)).
Proof.
  induction 1 as [|r chunks Hr _ [IH1 IH2]]; [split; [constructor | reflexivity] |].
  split.
  - constructor; [| exact IH1]. unfold decode_chunk. now rewrite Hr.
  - cbn [map concat]. rewrite concat_empty_cons, IH2.
    unfold TextEncoder_encode. now rewrite list_byte_of_string_append.
Qed.

(** X14: a stream whose chunks all come as text (none flagged as base64)
    is read without consulting the base64 decoder, whatever that decoder
    does: the result is the encoding of the chunks' texts put together in
    arrival order. *)
Theorem readProtocolStream_text_stream
    (decoder : string -> completion bytes) (handle : string) (path : option string)
    (init : list response) (last ack : response) (rest : list reply) (w : world) :
  Forall (fun r => eof r = false) init ->
  eof last = true ->
  Forall (fun r => base64Encoded r = false) (init ++ [last]) ->
  (forall p, given path = Some p -> p ∉ denied w) ->
  exists w',
    readProtocolStream decoder concat_std handle path
      (map Result (init ++ [last]) ++ Result ack :: rest) w =
    (Resolved (Some (TextEncoder_encode (String.concat "" (map data (init ++ [last]))))),
     rest, w').
Proof.
  intros Heof Hlast Htext Hallowed.
  destruct (text_chunks_decode decoder (init ++ [last]) Htext) as [Hdec Hconcat].
  rewrite (readProtocolStream_after_loop decoder concat_std handle path init last _ _ w
             Hallowed Heof Hlast Hdec).
  unfold iobind, client_send, ioret, concat_std. rewrite Hconcat.
  eexists. reflexivity.
Qed.

Lemma readProtocolStream_text_stream_witness :
  let broken := fun _ : string => @Throw bytes (mkError PlainError "no decoder") in
  exists w',
    readProtocolStream broken concat_std "stream-1" None
      (map Result ([mkResponse "<html>" false false] ++ [mkResponse "</html>" false true]) ++
       Result (mkResponse "" false false) :: [])
      (mkWorld [] ∅ ∅ [] []) =
    (Resolved (Some (TextEncoder_encode "<html></html>")), [], w').
Proof.
  intros broken.
  apply (readProtocolStream_text_stream broken "stream-1" None
           [mkResponse "<html>" false false] (mkResponse "</html>" false true)
           (mkResponse "" false false) [] (mkWorld [] ∅ ∅ [] [])).
  - repeat constructor.
  - reflexivity.
  - repeat constructor.
  - intros p Hp. discriminate Hp.
Defined.

End StreamMoreExamples.

(** ** More on object release and the generated scripts *)

Section ReleaseMoreFacts.

Local Open Scope list_scope.

(** X15: [releaseObject] touches nothing but the client and the
    diagnostic log: files, open handles and the set of unopenable paths are
    as before; it issues at most one command, [Runtime.releaseObject] with
    the object's id, consumes at most one reply, and logs at most one
    diagnostic, which is the engine's error. *)
Theorem releaseObject_frame (o : remoteObject) (rs : list reply) (w : world) :
  let r := releaseObject o rs w in
  files (snd r) = files w /\
  open_handles (snd r) = open_handles w /\
  denied (snd r) = denied w /\
  (issued (snd r) = issued w \/
   exists id, objectId o = Some id /\
              issued (snd r) = issued w ++ [mkCommand "Runtime.releaseObject" id]) /\
  (snd (fst r) = rs \/ snd (fst r) = tail rs) /\
  (diagnostics (snd r) = diagnostics w \/
   exists e rest, rs = Failure e :: rest /\ diagnostics (snd r) = diagnostics w ++ [e]).
Proof.
  cbn zeta. unfold releaseObject, given.
  destruct (objectId o) as [id|] eqn:Hid; [| cbn; auto 10].
  destruct (truthy_string id); [| cbn; auto 10].
  unfold iocatch, iobind, client_send, debugError, ioret, issue.
  destruct rs as [|[r | e | ] rest]; cbn; repeat split; eauto 10.
Qed.

(** The four scripts of the binding bridge are always produced (the
    assertion about string scripts cannot fire), and each applies the source
    of its function to the JSON text of the binding name, followed for the
    delivery scripts by the sequence number. *)
Theorem binding_scripts_shape (type : json) (d : delivery) (name : string) (seq : Z) :
  (exists t,
      pageBindingInitString type name =
        Return ("(" ++ addPageBinding_source ++ ")(" ++
                String.concat "," [t; QuoteJSONString name] ++ ")")%string) /\
  (exists source rest,
      source ∈ [deliverResult_source; deliverError_source; deliverErrorValue_source] /\
      delivery_script d name seq =
        Return ("(" ++ source ++ ")(" ++
                String.concat "," (QuoteJSONString name :: Number_toString seq :: rest) ++
                ")")%string).
Proof.
  split.
  - destruct (serializeArgument_defined type) as (t & Ht & _).
    exists t. unfold pageBindingInitString, evaluationString, Array_join.
    cbn [isString text_of map]. now rewrite Ht.
  - destruct d as [result | message stack | value]; cbn [delivery_script].
    + destruct (serializeArgument_defined result) as (r & Hr & _).
      exists deliverResult_source, [r]. split; [set_solver |].
      unfold pageBindingDeliverResultString, evaluationString, Array_join.
      cbn [isString text_of map]. now rewrite Hr.
    + exists deliverError_source, [QuoteJSONString message; QuoteJSONString stack].
      split; [set_solver | reflexivity].
    + destruct (serializeArgument_defined value) as (r & Hr & _).
      exists deliverErrorValue_source, [r]. split; [set_solver |].
      unfold pageBindingDeliverErrorValueString, evaluationString, Array_join.
      cbn [isString text_of map]. now rewrite Hr.
Qed.

End ReleaseMoreFacts.

(** ** Calls that lose their entry *)

Section BridgeOrphans.

Local Open Scope list_scope.

(** A promise that no entry holds: it exists, and no lookup yields it. *)
Local Abbreviation unheld := (fun (pg : page) (p : nat) (st : pstate) =>
  promises pg !! p = Some st /\ forall n s, entry pg n s <> Some p).

Lemma unheld_call :
  forall (f : fn_kind) (args : list json) (pg : page) (p : nat) (st : pstate),
    unheld pg p st -> unheld (snd (call f args pg)) p st.
Proof.
  fix IH 1. intros f args pg p st [Hp Hfree]. destruct f as [| type name binding].
  - cbn [call]. destruct args as [|[| | | | payload | |] [|? ?]]; split; assumption.
  - cbn [call]. destruct (window pg !! name) as [me|] eqn:Hme; [| split; assumption].
    set (pg1 := mkPage _ (promises pg ++ [Pending]) (outbox pg)).
    assert (H1 : unheld pg1 p st).
    { split; [now apply lookup_app_l_Some |].
      intros n s. unfold pg1. rewrite entry_insert. cbn [callbacks].
      case_bool_decide as Hn; [| apply Hfree]. subst n.
      destruct (decide (s = default 0 (lastSeq me) + 1)) as [-> | Hs].
      - rewrite lookup_insert_eq. intros Heq. injection Heq as Heq.
        apply lookup_lt_Some in Hp. lia.
      - rewrite lookup_insert_ne by congruence.
        specialize (Hfree name s). unfold entry in Hfree. rewrite Hme in Hfree.
        destruct (callbacks me); [exact Hfree |].
        cbn [default from_option]. now rewrite lookup_empty. }
    destruct binding as [b|]; [| exact H1].
    pose proof (IH b [JStr (default "" (JSON_stringify
                  (JObj [("type", type); ("name", JStr name);
                         ("seq", JNum (default 0 (lastSeq me) + 1));
                         ("args", JArr args)])))] pg1 p st H1) as H2.
    destruct (call b _ pg1) as [[r | e] pg2]; exact H2.
Qed.

Lemma unheld_op (op : page_op) (pg : page) (p : nat) (st : pstate) :
  unheld pg p st -> unheld (run_op op pg) p st.
Proof.
  intros [Hp Hfree]. destruct op as [type name | name args | d name seq]; cbn [run_op].
  - unfold addPageBinding. cbn [snd]. split; [exact Hp |].
    intros n s. rewrite entry_insert. case_bool_decide; [discriminate | apply Hfree].
  - unfold call_global. destruct (window pg !! name) as [f|]; [| split; assumption].
    now apply unheld_call.
  - destruct (entry pg name seq) as [q|] eqn:Hentry.
    2:{ destruct (deliver_not_found d name seq pg Hentry) as (e & -> & _).
        split; assumption. }
    pose proof Hentry as Hentry'. unfold entry in Hentry'.
    destruct (window pg !! name) as [f|] eqn:Hf; [| discriminate].
    destruct (callbacks f) as [cbs|] eqn:Hcbs; [| discriminate].
    rewrite (deliver_found d name seq pg f cbs q Hf Hcbs Hentry'). cbn [snd].
    assert (Hqp : q <> p) by (intros ->; now apply (Hfree name seq)).
    split.
    + cbn [promises]. destruct (promises pg !! q); [| exact Hp].
      now rewrite list_lookup_insert_ne by exact Hqp.
    + intros n s. rewrite entry_insert. cbn [callbacks].
      case_bool_decide as Hn; [| apply Hfree]. subst n.
      destruct (decide (s = seq)) as [-> | Hs]; [now rewrite lookup_delete_eq |].
      rewrite lookup_delete_ne by congruence.
      specialize (Hfree name s). unfold entry in Hfree. now rewrite Hf, Hcbs in Hfree.
Qed.

(** X16: when the init script of a binding is evaluated again while a
    call of that binding is open, the call's entry is gone and its promise
    is never settled: whatever is installed, called or delivered afterwards,
    the promise stays pending and no lookup finds it, so a delivery for the
    old sequence number cannot reach it. *)
Theorem reinstalling_orphans_open_calls (pg : page) (type : json) (name : string)
    (seq : Z) (p : nat) (ops : list page_op) :
  bridge_ok pg ->
  entry pg name seq = Some p ->
  let pg' := run_ops (Install type name :: ops) pg in
  promises pg' !! p = Some Pending /\
  (forall n s, entry pg' n s <> Some p) /\
  entry (run_op (Install type name) pg) name seq = None /\
  lastSeq_of (run_op (Install type name) pg) name = 0.
Proof.
  intros (HA & HB & HC) Hentry. cbn zeta.
  assert (H0 : unheld (run_op (Install type name) pg) p Pending).
  { cbn [run_op]. unfold addPageBinding. cbn [snd]. split; [now apply (HA name seq) |].
    intros n s. rewrite entry_insert. case_bool_decide as Hn; [discriminate |].
    intros Hq. destruct (HB n s name seq p Hq Hentry). congruence. }
  assert (Hrun : forall ops pg, unheld pg p Pending -> unheld (run_ops ops pg) p Pending).
  { clear. induction ops as [|op ops IH]; intros pg H; [exact H |].
    cbn [run_ops fold_left]. apply IH, unheld_op, H. }
  destruct (Hrun ops _ H0) as [Hp Hfree].
  split; [exact Hp |]. split; [exact Hfree |].
  cbn [run_op]. unfold addPageBinding. cbn [snd].
  rewrite entry_insert, lastSeq_of_insert, bool_decide_eq_true_2 by reflexivity.
  split; reflexivity.
Qed.

Lemma reinstalling_orphans_open_calls_witness :
  let pg0 := mkPage {[ "foo" := mkFn Native None None ]} [] [] in
  let pg := run_ops [Install (JStr "exposedFun") "foo"; Call "foo" [JNum 1]] pg0 in
  let pg' := run_ops [Install (JStr "exposedFun") "foo";
                      Deliver (OfResult (JStr "late")) "foo" 1; Call "foo" [JNum 2];
                      Deliver (OfResult (JStr "new")) "foo" 1] pg in
  promises pg' !! 0%nat = Some Pending /\ (forall n s, entry pg' n s <> Some 0%nat).
Proof.
  intros pg0 pg pg'.
  assert (Hok0 : bridge_ok pg0).
  { apply bridge_ok_fresh. intros name f Hf.
    unfold pg0 in Hf. cbn [window] in Hf.
    apply lookup_singleton_Some in Hf as [_ <-]. split; reflexivity. }
  assert (Hok : bridge_ok pg).
  { unfold pg, run_ops. cbn [fold_left]. now do 2 apply bridge_ok_op. }
  destruct (reinstalling_orphans_open_calls pg (JStr "exposedFun") "foo" 1 0
              [Deliver (OfResult (JStr "late")) "foo" 1; Call "foo" [JNum 2];
               Deliver (OfResult (JStr "new")) "foo" 1] Hok)
    as (Hp & Hfree & _).
  - vm_compute. reflexivity.
  - split; [exact Hp | exact Hfree].
Defined.

End BridgeOrphans.
